(** * auto-messenger-service: the claim / dispatch / retry pipeline

    A shallow embedding of
      - internal/domain                            (module [domain])
      - internal/repository/message/repository.go  (module [repository])
      - internal/service/msgsender.go              (modules [service],
                                                    [scheduler])
    and of the way concurrent callers of the repository interleave on the
    shared store (module [pipeline]), together with the properties of the
    pipeline that the specification states about them.

    Conventions.
      - Go [int] values (row identifiers, HTTP status codes, limits) are [Z];
        no arithmetic is done on them, only comparisons.
      - [time.Time] is an instant, a [Z]; [time.Duration] is a [Z] of
        nanoseconds.
      - The messages table is the list of its rows in the order a scan
        returns them; the primary key is [ID].
      - The Redis cache is a finite map from keys to entries.
      - What the environment decides (the HTTP response of an attempt, whether
        a database or cache call fails, the clock) is an explicit argument.
      - A Go [(value, error)] result is a pair whose second component is an
        [option Error].
      - The database is taken at its word: a transaction is atomic, the row
        locks of [FOR UPDATE] are held until it ends, and a query with
        [SKIP LOCKED] leaves out the rows locked by other transactions.
      - The ORM is taken at its word too: it tracks the field [UpdatedAt]
        of a model, so that an [Update] of one column also sets the column
        [updated_at] to the clock reading of the ORM. *)

From Stdlib Require Import ZArith.
From stdpp Require Import base option list gmap strings.

Local Open Scope Z_scope.

(* ===================================================================== *)
(** ** Package [domain] *)
(* ===================================================================== *)

Module domain.

(** [type MessageStatus int], with the four constants of the [iota] block
    in their order (0 to 3).  The field [Status] of a message is an [int];
    the code stores nothing in it but [int(status)] for one of the four
    constants and compares it with the constants only, so the status is kept
    as the constant itself and [int(status)] is the identity. *)
Inductive MessageStatus : Type :=
  | StatusPending
  | StatusProcessing
  | StatusSuccess
  | StatusFailed.

#[export] Instance MessageStatus_eq_dec : EqDecision MessageStatus.
Proof. solve_decision. Defined.

Definition Time : Type := Z.

(** The struct [Message], field for field.  [ID] is the primary key.
    [UpdatedAt] is a [*time.Time], nil until the first update; the field has
    no tag, and by its name the ORM tracks it as the update time of the
    row. *)
Record Message : Type := mkMessage {
  ID : Z;
  Content : string;
  PhoneNumber : string;
  Status : MessageStatus;
  CreatedAt : Time;
  UpdatedAt : option Time
}.

#[export] Instance Message_eq_dec : EqDecision Message.
Proof. solve_decision. Defined.

(** The struct [WebhookResponse], the decoded JSON body of a delivery; the
    field [Message] (JSON [message]) is [ResponseMessage] here, the name
    [Message] being taken by the struct above. *)
Record WebhookResponse : Type := mkWebhookResponse {
  MessageID : string;
  ResponseMessage : string
}.

End domain.

Import domain.

(* ===================================================================== *)
(** ** Package [repository] *)
(* ===================================================================== *)

Module repository.

Inductive Error : Type :=
  | ErrDatabase      (* an error reported by the database session *)
  | ErrCache         (* an error reported by the cache *)
  | ErrDecode.       (* the JSON decoder rejected the body *)

(** The rows of the [messages] table, in scan order. *)
Definition Table : Type := list Message.

(** The row a primary key designates. *)
Fixpoint lookup_row (id : Z) (t : Table) : option Message :=
  match t with
  | [] => None
  | m :: t' => if decide (ID m = id) then Some m else lookup_row id t'
  end.

Definition status_of (id : Z) (t : Table) : option MessageStatus :=
  Status <$> lookup_row id t.

Definition with_status (st : MessageStatus) (m : Message) : Message :=
  {| ID := ID m; Content := Content m; PhoneNumber := PhoneNumber m;
     Status := st; CreatedAt := CreatedAt m; UpdatedAt := UpdatedAt m |}.

Definition with_updated_at (now : Time) (m : Message) : Message :=
  {| ID := ID m; Content := Content m; PhoneNumber := PhoneNumber m;
     Status := Status m; CreatedAt := CreatedAt m; UpdatedAt := Some now |}.

(** [Limit(limit)]: a negative limit emits no LIMIT clause. *)
Definition Limit (limit : Z) (rows : list Message) : list Message :=
  if decide (limit < 0) then rows else take (Z.to_nat limit) rows.

(** [Clauses(Locking{UPDATE, SKIP LOCKED}).Where("status = ?", StatusPending)
     .Limit(limit).Find(&messages)]:
    the rows whose status is pending and that no other open transaction
    holds a row lock on ([locked] lists the identifiers locked by open
    transactions), cut at the limit.  The rows found become locked by the
    transaction that runs the query. *)
Definition select_pending_skip_locked
    (locked : list Z) (limit : Z) (t : Table) : list Message :=
  Limit limit (filter (λ m, Status m = StatusPending ∧ ID m ∉ locked) t).

(** [ids := make([]int, 0, len(messages)); for ... ids = append(ids, m.ID)] *)
Definition ids_of (messages : list Message) : list Z := ID <$> messages.

(** [Model(&Message{}).Where("id IN ?", ids).Update("status", st)]: in the
    rows whose key is among [ids] the column [status] is set to [st] and, the
    model having a tracked [UpdatedAt], the column [updated_at] to [now], the
    clock reading of the ORM. *)
Definition update_status_where_id_in
    (now : Time) (ids : list Z) (st : MessageStatus) (t : Table) : Table :=
  (λ m, if decide (ID m ∈ ids) then with_status st (with_updated_at now m) else m)
    <$> t.

(** [db.Save(msg)]: write every field of [msg] to the row with its primary
    key; insert the row when the key is not in the table. *)
Fixpoint save_row (msg : Message) (t : Table) : Table :=
  match t with
  | [] => [msg]
  | m :: t' => if decide (ID m = ID msg) then msg :: t' else m :: save_row msg t'
  end.

(** Where a database transaction of [FetchAndLockMessages] can fail. *)
Inductive TxFault : Type :=
  | NoFault
  | SelectFails
  | UpdateFails
  | CommitFails.

(** [FetchAndLockMessages], as one transaction.  [locked] lists the keys of
    the rows that other open transactions hold a lock on while the query
    runs, [now] is the clock reading of the update.  The update touches the
    table, not the slice [messages]: the rows handed back are the ones the
    query read.  A failed transaction is rolled back and leaves the table as
    it was. *)
Definition FetchAndLockMessages (locked : list Z) (now : Time) (limit : Z)
    (fault : TxFault) (t : Table) : (list Message * option Error) * Table :=
  match fault with
  | SelectFails => (([], Some ErrDatabase), t)
  | _ =>
    let messages := select_pending_skip_locked locked limit t in
    let ids := ids_of messages in
    match fault with
    | UpdateFails | CommitFails => ((messages, Some ErrDatabase), t)
    | _ => ((messages, None), update_status_where_id_in now ids StatusProcessing t)
    end
  end.

(** The cache: key to (value, time to live). *)
Record CacheValue : Type := mkCacheValue {
  messageId : string;
  sentAt : Time
}.

Definition Duration : Type := Z.
Definition Hour : Duration := 3600 * 1000000000.

(** What the service can see of the outside world, and what it did to it. *)
Inductive RepoCall : Type :=
  | CallUpdateStatus (id : Z) (status : MessageStatus)
  | CallCacheMessage (msgID : string).

#[export] Instance RepoCall_eq_dec : EqDecision RepoCall.
Proof. solve_decision. Defined.

Record repo : Type := mkRepo {
  db : Table;
  cache : gmap string (CacheValue * Duration);
  calls : list RepoCall          (* the calls issued so far, oldest first *)
}.

Definition set_db (t : Table) (r : repo) : repo :=
  {| db := t; cache := cache r; calls := calls r |}.
Definition set_cache (c : gmap string (CacheValue * Duration)) (r : repo) : repo :=
  {| db := db r; cache := c; calls := calls r |}.
Definition record_call (c : RepoCall) (r : repo) : repo :=
  {| db := db r; cache := cache r; calls := calls r ++ [c] |}.

(** [UpdateStatus]: [now] is the clock reading, [save_fails] whether
    [db.Save] reports an error.  [msg] is a pointer: the updated struct is
    returned next to the error.  The clock is read at the head of the
    function and, [UpdatedAt] being tracked, once more by the ORM when it
    saves; the two readings, taken within the one call, are the one instant
    [now]. *)
Definition UpdateStatus (now : Time) (save_fails : bool)
    (msg : Message) (status : MessageStatus) (r : repo)
    : (Message * option Error) * repo :=
  let msg := with_updated_at now msg in
  let msg := with_status status msg in
  let r := record_call (CallUpdateStatus (ID msg) status) r in
  if save_fails then ((msg, Some ErrDatabase), r)
  else ((msg, None), set_db (save_row msg (db r)) r).

(** [GetSentMessages] *)
Definition GetSentMessages (r : repo) : list Message :=
  filter (λ m, Status m = StatusSuccess) (db r).

(** [CacheMessage]: the key is ["sent_msg:" + msgID], the entry expires after
    24 hours. *)
Definition cache_key (msgID : string) : string := "sent_msg:" +:+ msgID.

Definition CacheMessage (set_fails : bool) (msgID : string) (sentTime : Time)
    (r : repo) : option Error * repo :=
  let key := cache_key msgID in
  let value := {| messageId := msgID; sentAt := sentTime |} in
  let r := record_call (CallCacheMessage msgID) r in
  if set_fails then (Some ErrCache, r)
  else (None, set_cache (<[key := (value, 24 * Hour)]> (cache r)) r).

End repository.

Import repository.

(* ===================================================================== *)
(** ** Package [service]: delivery and retry *)
(* ===================================================================== *)

Module service.

Inductive Level : Type := LevelInfo | LevelError.

Record LogLine : Type := mkLogLine {
  level : Level;
  dbMessageId : Z;
  attempt : option nat;       (* set by [retryLogger], absent on [msgLogger] *)
  text : string
}.

(** The JSON payload of one outbound POST. *)
Record Payload : Type := mkPayload {
  to : string;
  content : string
}.

(** What [doMsgRequest] gives back: the error of [http.NewRequestWithContext]
    when the request cannot be built, and otherwise what [httpClient.Do]
    gives back, an error or a response.  [body] is what the JSON decoder
    makes of the response body: [None] when it rejects it. *)
Inductive HttpResult : Type :=
  | RequestError
  | TransportError
  | Response (StatusCode : Z) (body : option WebhookResponse).

(** The state the service works on: the repository, the log, and the
    requests handed to [httpClient.Do] so far (oldest first). *)
Record World : Type := mkWorld {
  store : repo;
  log : list LogLine;
  sent : list Payload
}.

(** What the environment decides during one attempt. *)
Record AttemptEnv : Type := mkAttemptEnv {
  ctx_done : bool;            (* the context is cancelled before the attempt *)
  http : HttpResult;          (* the outcome of [doMsgRequest] *)
  update_now : Time;          (* clock read by [UpdateStatus] *)
  save_fails : bool;          (* [db.Save] fails *)
  cache_now : Time;           (* clock read by [saveResponse] *)
  cache_fails : bool          (* [cache.Set] fails *)
}.

(** What the environment decides for the update after the retry loop. *)
Record FallbackEnv : Type := mkFallbackEnv {
  fb_now : Time;
  fb_save_fails : bool
}.

(** A small state monad over [World]. *)
Definition M (A : Type) : Type := World → A * World.

#[export] Instance M_ret : MRet M := λ A a w, (a, w).
#[export] Instance M_bind : MBind M :=
  λ A B k c w, let '(a, w') := c w in k a w'.

Definition liftRepo {A} (c : repo → A * repo) : M A :=
  λ w, let '(a, r) := c (store w) in
       (a, {| store := r; log := log w; sent := sent w |}).

Definition logLine (l : LogLine) : M unit :=
  λ w, (tt, {| store := store w; log := log w ++ [l]; sent := sent w |}).

Definition when (b : bool) (c : M unit) : M unit := if b then c else mret tt.

Definition failed (err : option Error) : bool := bool_decide (is_Some err).

(** [payload := map[string]string{"to": msg.PhoneNumber, "content": msg.Content}] *)
Definition payload (msg : Message) : Payload :=
  {| to := PhoneNumber msg; content := Content msg |}.

(** [doMsgRequest]: when the request cannot be built the error is returned
    and nothing is sent; otherwise the POST of the payload is handed to
    [httpClient.Do], and the environment decides what comes back. *)
Definition doMsgRequest (outcome : HttpResult) (msg : Message) : M HttpResult :=
  λ w, match outcome with
       | RequestError => (outcome, w)
       | _ =>
         (outcome,
          {| store := store w; log := log w; sent := sent w ++ [payload msg] |})
       end.

(** [saveResponse] *)
Definition saveResponse (now : Time) (set_fails : bool)
    (body : option WebhookResponse) : M (option Error) :=
  match body with
  | None => mret (Some ErrDecode)
  | Some result =>
    if decide (MessageID result ≠ EmptyString) then
      liftRepo (CacheMessage set_fails (MessageID result) now)
    else mret None
  end.

Definition StatusAccepted : Z := 202.
Definition StatusBadRequest : Z := 400.
Definition StatusInternalServerError : Z := 500.

(** The closure [retryFunc] of [sendMessage]: one attempt.  The closure
    shares [msg] with its caller, so the struct is part of what it returns. *)
Definition retryFunc (e : AttemptEnv) (attempt : nat) (msg : Message)
    : M (bool * Message) :=
  let retryLogger lvl txt :=
    logLine {| level := lvl; dbMessageId := ID msg; attempt := Some attempt; text := txt |} in
  resp ← doMsgRequest (http e) msg;
  match resp with
  | RequestError | TransportError =>
    retryLogger LevelError "failed to send request" ;;
    mret (false, msg)
  | Response code body =>
    if decide (code = StatusAccepted) then
      '(msg, err) ← liftRepo (UpdateStatus (update_now e) (save_fails e) msg StatusSuccess);
      when (failed err)
           (retryLogger LevelError "failed to update message status to success") ;;
      retryLogger LevelInfo "message is successfuly sent" ;;
      err ← saveResponse (cache_now e) (cache_fails e) body;
      when (failed err)
           (retryLogger LevelError "failed to save message response") ;;
      mret (true, msg)
    else if decide (StatusInternalServerError ≤ code) then
      retryLogger LevelError "response indicates error" ;;
      mret (false, msg)
    else if decide (StatusBadRequest ≤ code) then
      retryLogger LevelError "response indicates error" ;;
      '(msg, err) ← liftRepo (UpdateStatus (update_now e) (save_fails e) msg StatusFailed);
      when (failed err)
           (retryLogger LevelError "failed to update message status to failed") ;;
      mret (true, msg)
    else mret (true, msg)
  end.

(** Modelled from the spec: the attempt budget of the retrier.  With a
    maximum of [k] attempts configured, the budget is used up once [k]
    attempts have been made; with none configured it never is. *)
Definition exhausted (maxAttempts : option nat) (attempt : nat) : bool :=
  match maxAttempts with
  | Some k => bool_decide (k < attempt)%nat
  | None => false
  end.

(** Modelled from the spec: the retrier of the library
    [github.com/aniladanir/retry], which is not part of the sources.
    [Retry(ctx, f, true)] calls [f] with the attempt numbers 1, 2, ... in
    order; it yields [true] as soon as a call returns [true] (terminate), and
    [false] when the configured maximum number of attempts has been made
    without that, or when the context is found cancelled between attempts.
    With no maximum configured ([None]) the attempts are unbounded.
    [script] is what the environment decides for the attempts to come; the
    result is [None] when the script ends before the loop does. *)
Fixpoint Retry {St E : Type} (maxAttempts : option nat) (cancelled : E → bool)
    (f : E → nat → St → bool * St) (attempt : nat) (script : list E) (s : St)
    : option (bool * St) :=
  if exhausted maxAttempts attempt then Some (false, s)
  else
    match script with
    | [] => None
    | e :: script' =>
      if cancelled e then Some (false, s)
      else
        let '(terminate, s') := f e attempt s in
        if terminate then Some (true, s')
        else Retry maxAttempts cancelled f (S attempt) script' s'
    end.

(** [retryFunc] as the retrier sees it: a function on the state it shares
    with [sendMessage]. *)
Definition attemptStep (e : AttemptEnv) (attempt : nat) (s : Message * World)
    : bool * (Message * World) :=
  let '((terminate, msg), w) := retryFunc e attempt (fst s) (snd s) in
  (terminate, (msg, w)).

(** [sendMessage] *)
Definition sendMessage (maxAttempts : option nat) (script : list AttemptEnv)
    (fb : FallbackEnv) (msg : Message) (w : World) : option (Message * World) :=
  match Retry maxAttempts ctx_done attemptStep 1 script (msg, w) with
  | None => None
  | Some (retrySuccess, (msg, w)) =>
    if negb retrySuccess then
      let msgLogger txt :=
        logLine {| level := LevelError; dbMessageId := ID msg; attempt := None; text := txt |} in
      Some (('(msg, err) ← liftRepo (UpdateStatus (fb_now fb) (fb_save_fails fb)
                                                  msg StatusFailed);
             when (failed err)
                  (msgLogger "failed to update message status to failed") ;;
             mret msg) w)
    else Some (msg, w)
  end.

(** [processBatch].  [locked], [now] and [fault] are what the environment
    decides for the claim (the rows other transactions hold, the clock, what
    happens to the transaction), [env] what it decides for the delivery of
    each message.
    The goroutines started by [wg.Go] work on distinct rows; they are run
    here one after the other, in batch order.  A failed claim is reported
    with the standard [log] package, which is not part of [World]. *)
Fixpoint sendAll (maxAttempts : option nat)
    (env : Message → list AttemptEnv * FallbackEnv)
    (msgs : list Message) (w : World) : option World :=
  match msgs with
  | [] => Some w
  | msg :: msgs' =>
    match sendMessage maxAttempts (fst (env msg)) (snd (env msg)) msg w with
    | None => None
    | Some (_, w') => sendAll maxAttempts env msgs' w'
    end
  end.

Definition processBatch (maxAttempts : option nat) (locked : list Z) (now : Time)
    (batch : Z) (fault : TxFault)
    (env : Message → list AttemptEnv * FallbackEnv) (w : World) : option World :=
  let '((msgs, err), t) := FetchAndLockMessages locked now batch fault (db (store w)) in
  let w := {| store := set_db t (store w); log := log w; sent := sent w |} in
  if failed err then Some w
  else if decide (length msgs = 0%nat) then Some w
  else sendAll maxAttempts env msgs w.

End service.

Import service.

(* ===================================================================== *)
(** ** Package [service]: the scheduler *)
(* ===================================================================== *)

Module scheduler.

(** The lifecycle part of the struct [service]: the flag [isRunning], and
    what the goroutines started by [Start] are doing.  A scheduler goroutine
    is [live] from the moment it is started until it receives from
    [stopChan]; [stopped] counts the goroutines that received the signal,
    stopped their ticker and cancelled their context; [cycles] counts the
    calls of [processBatch]. *)
Record service : Type := mkService {
  isRunning : bool;
  live : nat;
  stopped : nat;
  cycles : nat
}.

(** [NewMessageSenderService]: the flag is the zero value, nothing runs. *)
Definition NewMessageSenderService : service :=
  {| isRunning := false; live := 0; stopped := 0; cycles := 0 |}.

(** [Start]: returns at once when the flag is set; otherwise creates a
    ticker (the send interval is taken to be positive) and starts a
    goroutine, which runs one cycle and then waits for ticks or for the stop
    signal.  No statement of [Start] writes [isRunning]. *)
Definition Start (s : service) : service :=
  if isRunning s then s
  else {| isRunning := isRunning s;
          live := S (live s);
          stopped := stopped s;
          cycles := S (cycles s) |}.

(** [Stop]: returns at once when the flag is not set; otherwise sends on the
    unbuffered [stopChan], which one live goroutine receives, and clears the
    flag.  With no goroutine to receive, the send never returns ([None]). *)
Definition Stop (s : service) : option service :=
  if negb (isRunning s) then Some s
  else match live s with
       | O => None
       | S n => Some {| isRunning := false;
                        live := n;
                        stopped := S (stopped s);
                        cycles := cycles s |}
       end.

(** The tickers fire: every live goroutine runs a cycle. *)
Definition Tick (s : service) : service :=
  {| isRunning := isRunning s;
     live := live s;
     stopped := stopped s;
     cycles := (cycles s + live s)%nat |}.

Inductive Call : Type := CallStart | CallStop | TickerFires.

#[export] Instance Call_eq_dec : EqDecision Call.
Proof. solve_decision. Defined.

Definition call (c : Call) (s : service) : option service :=
  match c with
  | CallStart => Some (Start s)
  | CallStop => Stop s
  | TickerFires => Some (Tick s)
  end.

Fixpoint calls_from (cs : list Call) (s : service) : option service :=
  match cs with
  | [] => Some s
  | c :: cs' =>
    match call c s with
    | Some s' => calls_from cs' s'
    | None => None
    end
  end.

End scheduler.

(* ===================================================================== *)
(** ** The pipeline: claims and deliveries against one shared store *)
(* ===================================================================== *)

Module pipeline.

(** A call of [FetchAndLockMessages], as the database sees it.  The
    transaction holds the row locks of the rows it selected until it commits
    or is rolled back; its update, made at the clock reading [now], becomes
    visible when it commits. *)
Inductive Tx : Type :=
  | TxSelected (messages : list Message)     (* the locking query has run *)
  | TxUpdated (messages : list Message) (now : Time)
                                             (* the update has run, uncommitted *)
  | TxCommitted (messages : list Message)    (* returned [(messages, nil)] *)
  | TxRolledBack (messages : list Message).  (* returned [(messages, err)] *)

Definition tx_locked (tx : Tx) : list Z :=
  match tx with
  | TxSelected ms | TxUpdated ms _ => ids_of ms
  | TxCommitted _ | TxRolledBack _ => []
  end.

Definition tx_claimed (tx : Tx) : list Z :=
  match tx with
  | TxCommitted ms => ids_of ms
  | _ => []
  end.

(** The identifiers of the rows locked by open transactions. *)
Definition locked_ids (txs : list Tx) : list Z := txs ≫= tx_locked.

(** The identifiers in the batches of the claims that succeeded. *)
Definition claimed_ids (txs : list Tx) : list Z := txs ≫= tx_claimed.

(** [inflight]: the messages of claimed batches for which [processBatch]
    has started [sendMessage] and [sendMessage] has not returned. *)
Record System : Type := mkSystem {
  world : World;
  txs : list Tx;
  inflight : list Message
}.

Definition table (s : System) : Table := db (store (world s)).

Definition set_table (t : Table) (w : World) : World :=
  {| store := set_db t (store w); log := log w; sent := sent w |}.

Definition initial (w : World) : System :=
  {| world := w; txs := []; inflight := [] |}.

(** What can happen next.  The callers of [FetchAndLockMessages] (scheduler
    goroutines of this or of another process) and the deliveries interleave
    at the grain of these events. *)
Inductive Event : Type :=
  | Select (limit : Z)        (* a caller begins a transaction and runs the locking query *)
  | Update (tx : nat) (now : Time)
                              (* transaction [tx] runs its update *)
  | Commit (tx : nat)         (* transaction [tx] commits; its batch is dispatched *)
  | Rollback (tx : nat)       (* the update or the commit of [tx] fails *)
  | Send (i : nat) (script : list AttemptEnv) (fb : FallbackEnv).
                              (* [sendMessage] runs for the [i]-th message in flight *)

Definition step (maxAttempts : option nat) (ev : Event) (s : System)
    : option System :=
  match ev with
  | Select limit =>
    let messages := select_pending_skip_locked (locked_ids (txs s)) limit (table s) in
    Some {| world := world s; txs := txs s ++ [TxSelected messages];
            inflight := inflight s |}
  | Update i now =>
    match txs s !! i with
    | Some (TxSelected ms) =>
      Some {| world := world s; txs := <[i := TxUpdated ms now]> (txs s);
              inflight := inflight s |}
    | _ => None
    end
  | Commit i =>
    match txs s !! i with
    | Some (TxUpdated ms now) =>
      Some {| world := set_table (update_status_where_id_in now (ids_of ms)
                                    StatusProcessing (table s)) (world s);
              txs := <[i := TxCommitted ms]> (txs s);
              inflight := inflight s ++ ms |}
    | _ => None
    end
  | Rollback i =>
    match txs s !! i with
    | Some (TxSelected ms) | Some (TxUpdated ms _) =>
      Some {| world := world s; txs := <[i := TxRolledBack ms]> (txs s);
              inflight := inflight s |}
    | _ => None
    end
  | Send j script fb =>
    match inflight s !! j with
    | Some msg =>
      match sendMessage maxAttempts script fb msg (world s) with
      | Some (_, w') =>
        Some {| world := w'; txs := txs s; inflight := delete j (inflight s) |}
      | None => None
      end
    | None => None
    end
  end.

Fixpoint run (maxAttempts : option nat) (evs : list Event) (s : System)
    : option System :=
  match evs with
  | [] => Some s
  | ev :: evs' =>
    match step maxAttempts ev s with
    | Some s' => run maxAttempts evs' s'
    | None => None
    end
  end.

(** The edges of the status state machine. *)
Definition legal_update (a b : MessageStatus) : bool :=
  match a, b with
  | StatusPending, StatusProcessing => true
  | StatusProcessing, StatusSuccess => true
  | StatusProcessing, StatusFailed => true
  | _, _ => false
  end.

(** What one event may do to the status stored under an identifier: leave
    it, or move it along an edge. *)
Definition legal_change (o o' : option MessageStatus) : Prop :=
  o = o' ∨ ∃ a b, o = Some a ∧ o' = Some b ∧ legal_update a b = true.

Definition terminal (st : MessageStatus) : bool :=
  match st with
  | StatusSuccess | StatusFailed => true
  | _ => false
  end.

End pipeline.

Import scheduler pipeline.

(* ===================================================================== *)
(** ** Packages [redis], [postgresql] and [main]: start-up *)
(* ===================================================================== *)

Module redis.

Inductive DialError : Type :=
  | ErrPing.     (* ["failed to ping redis instance: %w"] *)

(** The state of the loop of [NewRedisCache]: the last ping error, the
    pings sent, and the ticks of [retryTicker] waited for. *)
Record Dial : Type := mkDial {
  pingErr : option DialError;
  pings : nat;
  waits : nat
}.

(** [for range 5 { if pingErr = rClient.Ping(ctx).Err(); pingErr == nil
     { break }; <-retryTicker.C }], with the number of rounds left as
    argument.  [ping i] tells whether the ping number [i] (from 0) is
    answered. *)
Fixpoint pingLoop (rounds : nat) (ping : nat → bool) (d : Dial) : Dial :=
  match rounds with
  | O => d
  | S rounds' =>
    if ping (pings d)
    then {| pingErr := None; pings := S (pings d); waits := waits d |}
    else pingLoop rounds' ping
           {| pingErr := Some ErrPing; pings := S (pings d); waits := S (waits d) |}
  end.

(** The struct [RedisCache]: a client for the address. *)
Record RedisCache : Type := mkRedisCache { addr : string }.

(** [NewRedisCache]: the cache and the error, next to what the loop did. *)
Definition NewRedisCache (address : string) (ping : nat → bool)
    : (option RedisCache * option DialError) * Dial :=
  let d := pingLoop 5 ping {| pingErr := None; pings := 0; waits := 0 |} in
  match pingErr d with
  | Some err => ((None, Some err), d)
  | None => ((Some {| addr := address |}, None), d)
  end.

End redis.

Module postgresql.

Inductive InitError : Type :=
  | ErrOpen        (* the error of the last [gorm.Open] *)
  | ErrMigrate.    (* the error of [db.AutoMigrate] *)

(** The state of [Initialize]: the error held in [err], the calls of
    [gorm.Open], the ticks waited for, and whether [AutoMigrate] ran. *)
Record Init : Type := mkInit {
  err : option InitError;
  opens : nat;
  ticks : nat;
  migrated : bool
}.

(** [for range 5 { db, err = gorm.Open(...); if err == nil { break };
     <-retryTicker.C }].  [open i] tells whether the call number [i] (from 0)
    of [gorm.Open] succeeds. *)
Fixpoint openLoop (rounds : nat) (open : nat → bool) (st : Init) : Init :=
  match rounds with
  | O => st
  | S rounds' =>
    if open (opens st)
    then {| err := None; opens := S (opens st); ticks := ticks st;
            migrated := migrated st |}
    else openLoop rounds' open
           {| err := Some ErrOpen; opens := S (opens st); ticks := S (ticks st);
              migrated := migrated st |}
  end.

(** [Initialize]: the connection loop, then, with a connection only, the
    migration, whose error is the result. *)
Definition Initialize (open : nat → bool) (migrate_fails : bool) : Init :=
  let st := openLoop 5 open {| err := None; opens := 0; ticks := 0; migrated := false |} in
  match err st with
  | Some _ => st
  | None =>
    {| err := if migrate_fails then Some ErrMigrate else None;
       opens := opens st; ticks := ticks st; migrated := true |}
  end.

End postgresql.

Module main.

(** The [Content] and [PhoneNumber] of the structs of [populateDatabase]. *)
Definition messages : list (string * string) :=
  [("Hello World 1", "+905549998877");
   ("Hello World 2", "+905549998876");
   ("Hello World 3", "+905549998875");
   ("Hello World 4", "+905549998874");
   ("Hello World 5", "+905549998873");
   ("Hello World 6", "+905549998872");
   ("Hello World 7", "+905549998871");
   ("Hello World 8", "+905549998870")].

(** [populateDatabase].  [count_fails] and [create_fails] tell whether the
    count query and the insert fail.  The structs of the source set the
    content and the phone number only; [stored] gives the rows the database
    holds for them once inserted (with the key, the status and the
    timestamps it and the ORM fill in). *)
Definition populateDatabase (count_fails create_fails : bool)
    (stored : list (string * string) → list Message) (t : Table)
    : option Error * Table :=
  if count_fails then (Some ErrDatabase, t)
  else if decide (length t = 0%nat) then
    if create_fails then (Some ErrDatabase, t)
    else (None, t ++ stored messages)
  else (None, t).

End main.

(* ===================================================================== *)
(** ** Sample data *)
(* ===================================================================== *)

Definition hello (id : Z) (st : MessageStatus) : Message :=
  {| ID := id; Content := "Hello World"; PhoneNumber := "+905549998877";
     Status := st; CreatedAt := 1700000000; UpdatedAt := None |}.

Definition two_pending : Table := [hello 1 StatusPending; hello 2 StatusPending].

Definition world_of (t : Table) : World :=
  {| store := {| db := t; cache := ∅; calls := [] |}; log := []; sent := [] |}.

Definition answer (code : Z) (body : option WebhookResponse) : AttemptEnv :=
  {| ctx_done := false; http := Response code body;
     update_now := 1700000100; save_fails := false;
     cache_now := 1700000101; cache_fails := false |}.

Definition accepted_body : option WebhookResponse :=
  Some {| MessageID := "67f2f8a8"; ResponseMessage := "Accepted" |}.

Definition fallback : FallbackEnv := {| fb_now := 1700000200; fb_save_fails := false |}.

Definition three_pending : Table :=
  [hello 1 StatusPending; hello 2 StatusPending; hello 3 StatusPending].

(** Two claims with limit 2 whose transactions overlap, then two deliveries:
    the first claim locks rows 1 and 2, the second finds row 3 only; the
    second commits first.  Row 3 is delivered (202), row 2 is refused (400),
    row 1 is still in flight. *)
Definition two_claims : list Event :=
  [Select 2; Select 2; Update 1 1700000051; Update 0 1700000052;
   Commit 1; Commit 0;
   Send 0 [answer 202 accepted_body] fallback;
   Send 1 [answer 400 None] fallback].

(** A table with rows in every state but in progress. *)
Definition mixed_table : Table :=
  [hello 1 StatusPending; hello 2 StatusSuccess; hello 3 StatusFailed;
   hello 4 StatusPending].

Definition repo_of (t : Table) : repo := {| db := t; cache := ∅; calls := [] |}.

(** Every delivery is accepted at the first attempt. *)
Definition always_accepted (m : Message) : list AttemptEnv * FallbackEnv :=
  ([answer 202 accepted_body], fallback).

(** A database that numbers the rows it is given from 1 and stores them as
    pending. *)
Definition stored_rows (ps : list (string * string)) : list Message :=
  imap (λ i p, {| ID := Z.of_nat (S i); Content := p.1; PhoneNumber := p.2;
                  Status := StatusPending; CreatedAt := 1700000000;
                  UpdatedAt := None |}) ps.

(* ===================================================================== *)
(** ** Vocabulary of the properties *)
(* ===================================================================== *)

(** An attempt that the loop follows by another one: no response (the
    request could not be built, or the client reported an error), or a
    status code of 500 or more. *)
Definition retryable (e : AttemptEnv) : bool :=
  match http e with
  | RequestError | TransportError => true
  | Response code _ => bool_decide (StatusInternalServerError ≤ code)
  end.

(** An attempt whose request is built and handed to the client. *)
Definition requested (e : AttemptEnv) : bool :=
  match http e with
  | RequestError => false
  | _ => true
  end.

(** The requests a run of attempts hands to the client. *)
Definition requests (es : list AttemptEnv) : nat :=
  length (filter (λ e, requested e = true) es).

(** An attempt that is made (the context is live) and is retryable. *)
Definition retried (e : AttemptEnv) : bool := negb (ctx_done e) && retryable e.

(** The external message identifier a response body carries, if any. *)
Definition external_id (body : option WebhookResponse) : option string :=
  match body with
  | Some result =>
    if decide (MessageID result ≠ EmptyString) then Some (MessageID result) else None
  | None => None
  end.

(** The calls to the repository that write an idempotency record. *)
Definition cache_calls (body : option WebhookResponse) : list RepoCall :=
  match external_id body with
  | Some msgID => [CallCacheMessage msgID]
  | None => []
  end.

(** Whether writing the idempotency record of an accepted delivery fails:
    the body carries an identifier and the cache reports an error. *)
Definition record_write_fails (e : AttemptEnv) (body : option WebhookResponse) : bool :=
  match external_id body with
  | Some _ => cache_fails e
  | None => false
  end.

(** The lines an attempt answered with 202 writes to the log. *)
Definition accepted_log (e : AttemptEnv) (attempt : nat) (id : Z)
    (body : option WebhookResponse) : list LogLine :=
  let line lvl txt :=
    {| level := lvl; dbMessageId := id; attempt := Some attempt; text := txt |} in
  (if save_fails e
   then [line LevelError "failed to update message status to success"] else [])
  ++ [line LevelInfo "message is successfuly sent"]
  ++ (if record_write_fails e body || bool_decide (body = None)
      then [line LevelError "failed to save message response"] else []).

(** The terminal status updates for one message among the calls. *)
Definition terminal_updates (id : Z) (cs : list RepoCall) : list RepoCall :=
  filter (λ c, c = CallUpdateStatus id StatusSuccess
               ∨ c = CallUpdateStatus id StatusFailed) cs.

(** The status updates among the calls, whatever the message and the status:
    the key and the status of each call of [UpdateStatus], in order. *)
Definition status_updates (cs : list RepoCall) : list (Z * MessageStatus) :=
  omap (λ c, match c with
             | CallUpdateStatus id st => Some (id, st)
             | CallCacheMessage _ => None
             end) cs.

(** The identifiers a transaction holds or has claimed: those of its batch,
    unless it was rolled back. *)
Definition tx_owned (tx : Tx) : list Z :=
  match tx with
  | TxSelected ms | TxUpdated ms _ | TxCommitted ms => ids_of ms
  | TxRolledBack _ => []
  end.

Definition owned_ids (txs : list Tx) : list Z := txs ≫= tx_owned.

(** The status updates an event of the pipeline performs, each with the key
    of the row and the status written: the update statement of a claim takes
    effect when its transaction commits, one write for each row of the batch;
    a delivery performs the calls of [UpdateStatus] it issues ([cs] are the
    calls the event adds to the record of the repository); the locking query,
    the uncommitted update and the rollback write nothing. *)
Definition event_updates (s : System) (ev : Event) (cs : list RepoCall)
    : list (Z * MessageStatus) :=
  match ev with
  | Commit i =>
    match txs s !! i with
    | Some (TxUpdated ms _) => (λ id, (id, StatusProcessing)) <$> ids_of ms
    | _ => []
    end
  | Send _ _ _ => status_updates cs
  | Select _ | Update _ _ | Rollback _ => []
  end.

(** The invariant of the pipeline. *)
Record consistent (s : System) : Prop := mkConsistent {
  keys_unique : NoDup (ids_of (table s));
  owned_unique : NoDup (owned_ids (txs s));
  locked_pending : ∀ id,
    id ∈ locked_ids (txs s) → status_of id (table s) = Some StatusPending;
  claimed_not_pending : ∀ id,
    id ∈ claimed_ids (txs s) →
    ∃ st, status_of id (table s) = Some st ∧ st ≠ StatusPending;
  inflight_unique : NoDup (ids_of (inflight s));
  inflight_processing : ∀ id,
    id ∈ ids_of (inflight s) → status_of id (table s) = Some StatusProcessing
}.

(** What of a message neither a claim nor a delivery is to change. *)
Definition content_of (m : Message) : Z * string * string * Time :=
  (ID m, Content m, PhoneNumber m, CreatedAt m).




(* ===================================================================== *)
(** ** Properties of the repository *)
(* ===================================================================== *)

Section table_facts.
Implicit Types (t : Table) (m msg : Message) (id : Z) (st : MessageStatus).

Lemma lookup_row_Some id t m :
  lookup_row id t = Some m → m ∈ t ∧ ID m = id.
Proof.
  induction t as [|m' t IH]; simpl; [done|].
  case_decide as Hid.
  - intros [= <-]. split; [left | done].
  - intros [Hin ?]%IH. split; [by right | done].
Qed.

Lemma lookup_row_elem_of m t :
  NoDup (ids_of t) → m ∈ t → lookup_row (ID m) t = Some m.
Proof.
  unfold ids_of. induction t as [|m' t IH]; simpl.
  - by intros _ ?%elem_of_nil.
  - intros [Hnotin Hnd]%NoDup_cons [->|Hin]%elem_of_cons.
    + by rewrite decide_True.
    + rewrite decide_False; [by apply IH|].
      intros Heq. apply Hnotin. rewrite Heq. by apply list_elem_of_fmap_2.
Qed.

Lemma status_of_is_Some id t :
  is_Some (status_of id t) ↔ id ∈ ids_of t.
Proof.
  unfold status_of, ids_of. induction t as [|m t IH]; simpl.
  - split; [by intros [? [=]] | by intros ?%elem_of_nil].
  - case_decide as Hid.
    + subst id. split; [intros _; left | intros _; by eexists].
    + rewrite IH, elem_of_cons. split; [by right | intros [?|?]; [congruence | done]].
Qed.

Lemma ids_of_update now ids st t :
  ids_of (update_status_where_id_in now ids st t) = ids_of t.
Proof.
  unfold ids_of, update_status_where_id_in.
  rewrite <- list_fmap_compose. apply list_fmap_ext.
  intros _ m _. simpl. by case_decide.
Qed.

Lemma status_of_update now ids st id t :
  status_of id (update_status_where_id_in now ids st t) =
  if decide (id ∈ ids) then (λ _, st) <$> status_of id t else status_of id t.
Proof.
  unfold status_of, update_status_where_id_in.
  induction t as [|m t IH]; simpl; [by case_decide|].
  destruct (decide (ID m ∈ ids)) as [Hm|Hm]; simpl.
  - destruct (decide (ID m = id)) as [<-|Hne]; [by rewrite decide_True|done].
  - destruct (decide (ID m = id)) as [<-|Hne]; [by rewrite decide_False|done].
Qed.

Lemma lookup_row_save_eq msg t :
  lookup_row (ID msg) (save_row msg t) = Some msg.
Proof.
  induction t as [|m t IH]; simpl; [by rewrite decide_True|].
  destruct (decide (ID m = ID msg)) as [Heq|Hne]; simpl.
  - by rewrite decide_True.
  - by rewrite decide_False.
Qed.

Lemma lookup_row_save_ne id msg t :
  id ≠ ID msg → lookup_row id (save_row msg t) = lookup_row id t.
Proof.
  intros Hne. induction t as [|m t IH]; simpl.
  - by rewrite decide_False.
  - destruct (decide (ID m = ID msg)) as [Heq|Hne']; simpl.
    + rewrite !decide_False; [done|congruence..].
    + by rewrite IH.
Qed.

Lemma status_of_save id msg t :
  status_of id (save_row msg t) =
  if decide (id = ID msg) then Some (Status msg) else status_of id t.
Proof.
  unfold status_of. case_decide as Hid.
  - subst. by rewrite lookup_row_save_eq.
  - by rewrite lookup_row_save_ne.
Qed.

Lemma ids_of_save msg t :
  ID msg ∈ ids_of t → ids_of (save_row msg t) = ids_of t.
Proof.
  unfold ids_of. induction t as [|m t IH]; simpl.
  - by intros ?%elem_of_nil.
  - intros Hin. destruct (decide (ID m = ID msg)) as [Heq|Hne]; simpl.
    + by rewrite Heq.
    + f_equal. apply IH. apply elem_of_cons in Hin as [?|?]; [congruence|done].
Qed.

Lemma Limit_sublist limit (rows : list Message) :
  Limit limit rows `sublist_of` rows.
Proof. unfold Limit. case_decide; [done | apply sublist_take]. Qed.

Lemma select_sublist locked limit t :
  select_pending_skip_locked locked limit t `sublist_of` t.
Proof.
  unfold select_pending_skip_locked.
  etrans; [apply Limit_sublist | apply sublist_filter].
Qed.

Lemma select_elem_of locked limit t m :
  m ∈ select_pending_skip_locked locked limit t →
  m ∈ t ∧ Status m = StatusPending ∧ ID m ∉ locked.
Proof.
  unfold select_pending_skip_locked. intros Hin.
  apply (sublist_subseteq _ _ (Limit_sublist _ _)) in Hin.
  apply list_elem_of_filter in Hin as [[? ?] ?]. done.
Qed.

Lemma select_ids_NoDup locked limit t :
  NoDup (ids_of t) → NoDup (ids_of (select_pending_skip_locked locked limit t)).
Proof.
  intros Hnd. apply (sublist_NoDup _ _ Hnd).
  unfold ids_of. apply fmap_sublist, select_sublist.
Qed.
End table_facts.

(** C10.  [UpdateStatus] sets the status of the struct to the status given
    and its last-update timestamp to the clock reading, and keeps the
    identifier, the content, the phone number and the creation timestamp.
    When the save succeeds, the row stored under the identifier is the struct
    so modified and every other row is as before; when it fails, the table is
    as before.  The cache is not touched. *)
Theorem UpdateStatus_sets_status_and_timestamp_only
    (now : Time) (save_fails : bool) (msg : Message)
    (status : MessageStatus) (r : repo) :
  let res := UpdateStatus now save_fails msg status r in
  let msg' := res.1.1 in
  msg' = {| ID := ID msg; Content := Content msg; PhoneNumber := PhoneNumber msg;
            Status := status; CreatedAt := CreatedAt msg; UpdatedAt := Some now |}
  ∧ cache res.2 = cache r
  ∧ (if save_fails
     then res.1.2 = Some ErrDatabase ∧ db res.2 = db r
     else res.1.2 = None
          ∧ lookup_row (ID msg) (db res.2) = Some msg'
          ∧ ∀ id, lookup_row id (db res.2) =
                  if decide (id = ID msg) then Some msg' else lookup_row id (db r)).
Proof.
  unfold UpdateStatus. destruct save_fails; simpl; [done|].
  split_and!; [done..| |].
  - apply (lookup_row_save_eq (with_status status (with_updated_at now msg))).
  - intros id. case_decide as Hid.
    + subst id. apply (lookup_row_save_eq (with_status status (with_updated_at now msg))).
    + by apply lookup_row_save_ne.
Qed.

(** The rows a claim hands back are the rows the locking query read: rows of
    the table as it was, all pending.  In the table the claim leaves behind,
    the rows stored under their identifiers are in progress. *)
Lemma FetchAndLockMessages_batch locked now limit t :
  let res := FetchAndLockMessages locked now limit NoFault t in
  res.1.2 = None
  ∧ Forall (λ m, m ∈ t ∧ Status m = StatusPending
                 ∧ status_of (ID m) res.2 = Some StatusProcessing) res.1.1.
Proof.
  simpl. split; [done|]. apply Forall_forall. intros m Hin.
  pose proof (select_elem_of _ _ _ _ Hin) as (Ht & Hst & _).
  split_and!; [done..|].
  rewrite status_of_update, decide_True by (by apply list_elem_of_fmap_2).
  assert (is_Some (status_of (ID m) t)) as [st ->]; [|done].
  apply status_of_is_Some. by apply list_elem_of_fmap_2.
Qed.

(** C7, as the code has it.  After a successful claim every message of the
    batch is in progress in the store: the row stored under its identifier has
    the status [StatusProcessing].  The structs handed back to the caller are
    the rows as the query read them, before the update: their [Status] field
    is [StatusPending]. *)
Theorem claimed_rows_in_progress_in_store
    (locked : list Z) (now : Time) (limit : Z) (t : Table) :
  let res := FetchAndLockMessages locked now limit NoFault t in
  Forall (λ m, status_of (ID m) res.2 = Some StatusProcessing
               ∧ Status m = StatusPending) res.1.1.
Proof.
  destruct (FetchAndLockMessages_batch locked now limit t) as [_ H].
  eapply Forall_impl; [exact H|]. intros m (_ & ? & ?). done.
Qed.

(** C7, as stated, fails: a claim on a table of two pending rows, with limit
    1 and no other transaction open, succeeds and hands back the first row as
    the query read it, with the status [StatusPending], not
    [StatusProcessing], while the row stored under its key is in progress. *)
Lemma claimed_rows_carry_pending_status :
  (FetchAndLockMessages [] 1700000050 1 NoFault two_pending).1
    = ([hello 1 StatusPending], None)
  ∧ status_of 1 (FetchAndLockMessages [] 1700000050 1 NoFault two_pending).2
    = Some StatusProcessing
  ∧ ¬ Forall (λ m, Status m = StatusProcessing)
        (FetchAndLockMessages [] 1700000050 1 NoFault two_pending).1.1.
Proof.
  split_and!; [reflexivity..|].
  intros H. apply Forall_cons in H as [H _]. discriminate H.
Qed.

(** A response body carries an external identifier exactly when it decodes
    and its [messageId] is not empty; these are the bodies for which an
    idempotency record is written. *)
Lemma cache_calls_iff (body : option WebhookResponse) (msgID : string) :
  cache_calls body = [CallCacheMessage msgID]
  ↔ ∃ result, body = Some result ∧ MessageID result = msgID ∧ msgID ≠ EmptyString.
Proof.
  unfold cache_calls, external_id. destruct body as [result|]; simpl.
  - case_decide as Hid; simpl.
    + split; [intros [= <-]; by exists result|].
      by intros (? & [= <-] & <- & _).
    + split; [done|]. intros (? & [= <-] & <- & ?). by destruct Hid.
  - split; [done|]. by intros (? & [=] & _).
Qed.

(* ===================================================================== *)
(** ** Properties of one delivery *)
(* ===================================================================== *)

Ltac run_attempt :=
  unfold attemptStep, retryFunc, saveResponse, when, failed, liftRepo, logLine,
    doMsgRequest, UpdateStatus, CacheMessage, mbind, mret, M_bind, M_ret,
    StatusAccepted, StatusInternalServerError, StatusBadRequest in *;
  simpl in *.

Section one_attempt.
Implicit Types (e : AttemptEnv) (msg : Message) (w : World).

(** A retryable attempt sends its request, if it could build one, and
    reports "go on"; it leaves the struct and the repository alone. *)
Lemma attemptStep_retryable e attempt msg w :
  retryable e = true →
  ∃ w', attemptStep e attempt (msg, w) = (false, (msg, w'))
        ∧ store w' = store w
        ∧ sent w' = sent w ++ (if requested e then [payload msg] else []).
Proof.
  unfold retryable, requested. intros Hr. run_attempt.
  destruct (http e) as [| |code body]; simpl.
  - eexists. split_and!; [done..|]. by rewrite app_nil_r.
  - by eexists.
  - apply bool_decide_eq_true in Hr.
    rewrite decide_False by lia. rewrite decide_True by lia.
    by eexists.
Qed.

Lemma requests_cons e es :
  requests (e :: es) = ((if requested e then 1 else 0) + requests es)%nat.
Proof.
  unfold requests. rewrite filter_cons.
  destruct (requested e); [by rewrite decide_True|by rewrite decide_False].
Qed.

(** What an attempt answered with 202 does. *)
Lemma attemptStep_accepted e attempt msg w body :
  http e = Response StatusAccepted body →
  ∃ w', attemptStep e attempt (msg, w)
          = (true, (with_status StatusSuccess (with_updated_at (update_now e) msg), w'))
        ∧ calls (store w') = calls (store w)
             ++ CallUpdateStatus (ID msg) StatusSuccess :: cache_calls body
        ∧ db (store w') =
            (if save_fails e then db (store w)
             else save_row (with_status StatusSuccess (with_updated_at (update_now e) msg))
                           (db (store w)))
        ∧ cache (store w') =
            match external_id body with
            | Some msgID =>
              if cache_fails e then cache (store w)
              else <[cache_key msgID :=
                       ({| messageId := msgID; sentAt := cache_now e |}, 24 * Hour)]>
                     (cache (store w))
            | None => cache (store w)
            end
        ∧ sent w' = sent w ++ [payload msg]
        ∧ ∃ l, log w' = l ++ accepted_log e attempt (ID msg) body.
Proof.
  intros Hhttp. run_attempt. rewrite Hhttp. simpl.
  unfold accepted_log, record_write_fails, cache_calls, external_id.
  destruct (save_fails e), body as [result|]; simpl;
    try destruct (decide (MessageID result ≠ EmptyString)); simpl;
    try destruct (cache_fails e); simpl;
    eexists; (split; [reflexivity|]); simpl;
    rewrite <- ?(assoc_L (++)); (split_and!; [done..|]); by eexists.
Qed.

(** What an attempt answered with a client error does. *)
Lemma attemptStep_client_error e attempt msg w code body :
  http e = Response code body →
  StatusBadRequest ≤ code < StatusInternalServerError →
  ∃ w', attemptStep e attempt (msg, w)
          = (true, (with_status StatusFailed (with_updated_at (update_now e) msg), w'))
        ∧ calls (store w') = calls (store w) ++ [CallUpdateStatus (ID msg) StatusFailed]
        ∧ db (store w') =
            (if save_fails e then db (store w)
             else save_row (with_status StatusFailed (with_updated_at (update_now e) msg))
                           (db (store w)))
        ∧ cache (store w') = cache (store w)
        ∧ sent w' = sent w ++ [payload msg].
Proof.
  intros Hhttp Hcode. run_attempt. rewrite Hhttp. simpl.
  rewrite decide_False by lia. rewrite decide_False by lia.
  rewrite decide_True by lia.
  destruct (save_fails e); simpl; eexists; (split; [reflexivity|]); done.
Qed.

(** What an attempt answered with any other status code does: nothing but
    report "stop". *)
Lemma attemptStep_other e attempt msg w code body :
  http e = Response code body →
  code ≠ StatusAccepted → code < StatusBadRequest →
  ∃ w', attemptStep e attempt (msg, w) = (true, (msg, w'))
        ∧ store w' = store w
        ∧ sent w' = sent w ++ [payload msg].
Proof.
  intros Hhttp Hne Hlt. run_attempt. rewrite Hhttp. simpl.
  rewrite decide_False by done. rewrite decide_False by lia.
  rewrite decide_False by lia.
  by eexists.
Qed.
End one_attempt.

Section retry_loop.
Context (maxAttempts : option nat).
Implicit Types (e : AttemptEnv) (msg : Message) (w : World).

Lemma exhausted_mono n m :
  (m ≤ n)%nat → exhausted maxAttempts n = false → exhausted maxAttempts m = false.
Proof.
  unfold exhausted. destruct maxAttempts as [k|]; [|done].
  rewrite !bool_decide_eq_false. lia.
Qed.

(** Attempts that are made and are retryable are gone through one after
    the other, as long as the attempt budget lasts: each sends its request,
    if it could build one, none touches the repository. *)
Lemma Retry_retried_prefix pre : ∀ attempt msg w rest,
  Forall (λ e, retried e = true) pre →
  exhausted maxAttempts (attempt + length pre - 1) = false →
  ∃ w', Retry maxAttempts ctx_done attemptStep attempt (pre ++ rest) (msg, w)
        = Retry maxAttempts ctx_done attemptStep (attempt + length pre) rest (msg, w')
        ∧ store w' = store w
        ∧ sent w' = sent w ++ replicate (requests pre) (payload msg).
Proof.
  induction pre as [|e pre IH]; intros attempt msg w rest Hpre Hbudget.
  - exists w. simpl. by rewrite Nat.add_0_r, app_nil_r.
  - apply Forall_cons in Hpre as [He Hpre].
    apply andb_true_iff in He as [Hctx Hretry].
    apply negb_true_iff in Hctx.
    destruct (attemptStep_retryable e attempt msg w Hretry) as (w1 & Hstep & Hst & Hsent).
    destruct (IH (S attempt) msg w1 rest Hpre) as (w' & Hrun & Hst' & Hsent').
    { rewrite <- Hbudget. f_equal. simpl. lia. }
    exists w'. split_and!.
    + assert (exhausted maxAttempts attempt = false) as Hnow
        by (eapply exhausted_mono; [|exact Hbudget]; simpl; lia).
      simpl. rewrite Hnow.
      rewrite Hctx, Hstep. rewrite Hrun. f_equal. simpl. lia.
    + congruence.
    + rewrite Hsent', Hsent, requests_cons, <- (assoc_L (++)).
      by destruct (requested e).
Qed.

(** The loop ends with [false] only with the struct and the repository as
    they were; it ends with [true] only on an attempt that said "stop",
    made with the repository as it was. *)
Lemma Retry_outcome script : ∀ attempt msg w b msg' w',
  Retry maxAttempts ctx_done attemptStep attempt script (msg, w) = Some (b, (msg', w')) →
  (b = false ∧ msg' = msg ∧ store w' = store w)
  ∨ (b = true ∧ ∃ e n w1, store w1 = store w
                          ∧ attemptStep e n (msg, w1) = (true, (msg', w'))).
Proof.
  induction script as [|e script IH]; intros attempt msg w b msg' w'; simpl.
  - destruct (exhausted maxAttempts attempt); [|done].
    intros [= <- <- <-]. by left.
  - destruct (exhausted maxAttempts attempt); [intros [= <- <- <-]; by left|].
    destruct (ctx_done e); [intros [= <- <- <-]; by left|].
    destruct (attemptStep e attempt (msg, w)) as [terminate [msg1 w1]] eqn:Hstep.
    destruct terminate.
    + intros [= <- <- <-]. right. split; [done|]. by exists e, attempt, w.
    + assert (msg1 = msg ∧ store w1 = store w) as [-> Hst].
      { revert Hstep. run_attempt.
        destruct (http e) as [| |code body]; simpl; [by intros [= <- <-]..|].
        repeat case_decide; simpl; try done;
          try (by intros [= <- <-]);
          repeat match goal with
                 | |- context [save_fails e] => destruct (save_fails e); simpl
                 | |- context [match ?b with Some _ => _ | None => _ end] =>
                     destruct b; simpl
                 | |- context [decide ?P] => destruct (decide P); simpl
                 | |- context [cache_fails e] => destruct (cache_fails e); simpl
                 end; done. }
      intros Hrun. apply IH in Hrun as [(-> & -> & Hst')|(-> & e' & n & w2 & Hst' & Hstep')].
      * left. split_and!; [done..|congruence].
      * right. split; [done|]. exists e', n, w2. split; [congruence|done].
Qed.
End retry_loop.

Section one_delivery.
Context (maxAttempts : option nat).
Implicit Types (e : AttemptEnv) (msg : Message) (w : World).

(** C5.  When an attempt is answered with 202 (after any number of
    retried attempts, within the attempt budget), [sendMessage] ends with
    the status of the message updated to [StatusSuccess] and with no other
    status update: the call [UpdateStatus(msg, StatusSuccess)] is followed
    by a call [CacheMessage] exactly when the response body carries a
    non-empty message identifier.  Whether the cache accepts the record
    changes neither the struct nor the table; when it refuses, the line
    "failed to save message response" ends the log. *)
Theorem accepted_delivery_marks_success_and_records
    (pre : list AttemptEnv) (e : AttemptEnv) (rest : list AttemptEnv)
    (fb : FallbackEnv) (msg : Message) (w : World)
    (body : option WebhookResponse) :
  Forall (λ e, retried e = true) pre →
  exhausted maxAttempts (S (length pre)) = false →
  ctx_done e = false →
  http e = Response StatusAccepted body →
  let msg' := with_status StatusSuccess (with_updated_at (update_now e) msg) in
  ∃ w', sendMessage maxAttempts (pre ++ e :: rest) fb msg w = Some (msg', w')
        ∧ Status msg' = StatusSuccess
        ∧ calls (store w') = calls (store w)
             ++ CallUpdateStatus (ID msg) StatusSuccess :: cache_calls body
        ∧ db (store w') =
            (if save_fails e then db (store w) else save_row msg' (db (store w)))
        ∧ cache (store w') =
            match external_id body with
            | Some msgID =>
              if cache_fails e then cache (store w)
              else <[cache_key msgID :=
                       ({| messageId := msgID; sentAt := cache_now e |}, 24 * Hour)]>
                     (cache (store w))
            | None => cache (store w)
            end
        ∧ ∃ l, log w' = l ++ accepted_log e (S (length pre)) (ID msg) body.
Proof.
  intros Hpre Hbudget Hctx Hhttp msg'.
  destruct (Retry_retried_prefix maxAttempts pre 1 msg w (e :: rest) Hpre)
    as (w1 & Hrun & Hst & _).
  { eapply exhausted_mono; [|exact Hbudget]. lia. }
  destruct (attemptStep_accepted e (S (length pre)) msg w1 body Hhttp)
    as (w' & Hstep & Hcalls & Hdb & Hcache & _ & Hlog).
  exists w'. unfold sendMessage. rewrite Hrun. simpl.
  rewrite Hbudget, Hctx, Hstep. simpl.
  rewrite <- Hst. done.
Qed.

(** C8.  When an attempt is answered with a status code from 400 to 499
    (after any number of retried attempts, within the attempt budget),
    [sendMessage] updates the status of the message to [StatusFailed] in
    that attempt and makes no further attempt: whatever the environment had
    in store for later attempts, the requests sent are those of the retried
    attempts (one for each of them that could build its request) and of this
    one, and the only call to the repository is the update to
    [StatusFailed]. *)
Theorem client_error_marks_failed_without_retry
    (pre : list AttemptEnv) (e : AttemptEnv) (rest : list AttemptEnv)
    (fb : FallbackEnv) (msg : Message) (w : World)
    (code : Z) (body : option WebhookResponse) :
  Forall (λ e, retried e = true) pre →
  exhausted maxAttempts (S (length pre)) = false →
  ctx_done e = false →
  http e = Response code body →
  StatusBadRequest ≤ code < StatusInternalServerError →
  let msg' := with_status StatusFailed (with_updated_at (update_now e) msg) in
  ∃ w', sendMessage maxAttempts (pre ++ e :: rest) fb msg w = Some (msg', w')
        ∧ Status msg' = StatusFailed
        ∧ calls (store w') = calls (store w) ++ [CallUpdateStatus (ID msg) StatusFailed]
        ∧ sent w' = sent w ++ replicate (S (requests pre)) (payload msg)
        ∧ db (store w') =
            (if save_fails e then db (store w) else save_row msg' (db (store w)))
        ∧ cache (store w') = cache (store w).
Proof.
  intros Hpre Hbudget Hctx Hhttp Hcode msg'.
  destruct (Retry_retried_prefix maxAttempts pre 1 msg w (e :: rest) Hpre)
    as (w1 & Hrun & Hst & Hsent).
  { eapply exhausted_mono; [|exact Hbudget]. lia. }
  destruct (attemptStep_client_error e (S (length pre)) msg w1 code body Hhttp Hcode)
    as (w' & Hstep & Hcalls & Hdb & Hcache & Hsent').
  exists w'. unfold sendMessage. rewrite Hrun. simpl.
  rewrite Hbudget, Hctx, Hstep. simpl.
  rewrite <- Hst. split_and!; [done..| |done|done].
  rewrite Hsent', Hsent, <- (assoc_L (++)). f_equal.
  change [payload msg] with (replicate 1 (payload msg)).
  by rewrite <- replicate_add, Nat.add_1_r.
Qed.

(** An answer that is neither 202 nor an error code ends the loop with no
    call to the repository at all. *)
Lemma unclassified_answer_updates_nothing
    (e : AttemptEnv) (rest : list AttemptEnv) (fb : FallbackEnv)
    (msg : Message) (w : World) (code : Z) (body : option WebhookResponse) :
  exhausted maxAttempts 1 = false →
  ctx_done e = false →
  http e = Response code body →
  code ≠ StatusAccepted → code < StatusBadRequest →
  ∃ w', sendMessage maxAttempts (e :: rest) fb msg w = Some (msg, w')
        ∧ store w' = store w.
Proof.
  intros Hbudget Hctx Hhttp Hne Hlt.
  destruct (attemptStep_other e 1 msg w code body Hhttp Hne Hlt) as (w' & Hstep & Hst & _).
  exists w'. unfold sendMessage. simpl. by rewrite Hbudget, Hctx, Hstep.
Qed.

(** What a delivery can have done to the table when it returns: nothing, or
    saved the struct it returns, with a terminal status, under the
    identifier of the message. *)
Lemma sendMessage_table script fb msg w msg' w' :
  sendMessage maxAttempts script fb msg w = Some (msg', w') →
  ID msg' = ID msg
  ∧ (db (store w') = db (store w)
     ∨ (db (store w') = save_row msg' (db (store w)) ∧ terminal (Status msg') = true)).
Proof.
  unfold sendMessage.
  destruct (Retry maxAttempts ctx_done attemptStep 1 script (msg, w))
    as [[b [msg1 w1]]|] eqn:Hrun; [|done].
  apply Retry_outcome in Hrun as [(-> & -> & Hst)|(-> & e & n & w0 & Hst & Hstep)]; simpl.
  - run_attempt. destruct (fb_save_fails fb); simpl; intros [= <- <-]; simpl.
    + split; [done|]. left. by rewrite Hst.
    + split; [done|]. right. by rewrite Hst.
  - intros [= <- <-]. rewrite <- Hst. clear Hst. revert Hstep. run_attempt.
    destruct (http e) as [| |code body]; simpl; [done..|].
    repeat case_decide; simpl; try done.
    + destruct (save_fails e), body as [result|]; simpl;
        try destruct (decide (MessageID result ≠ EmptyString)); simpl;
        try destruct (cache_fails e); simpl;
        intros [= <- <-]; simpl; (split; [done|]); (by left) || (by right).
    + destruct (save_fails e); simpl;
        intros [= <- <-]; simpl; (split; [done|]); (by left) || (by right).
    + intros [= <- <-]. split; [done|]. by left.
Qed.
End one_delivery.

Section update_count.
Context (maxAttempts : option nat).
Implicit Types (e : AttemptEnv) (msg : Message) (w : World).

Lemma terminal_updates_cache_calls id body :
  terminal_updates id (cache_calls body) = [].
Proof.
  unfold terminal_updates, cache_calls. destruct (external_id body); [|done].
  rewrite filter_cons_False; [done|]. by intros [?|?].
Qed.

Lemma terminal_updates_own id st cs :
  terminal st = true →
  terminal_updates id (CallUpdateStatus id st :: cache_calls cs)
  = [CallUpdateStatus id st].
Proof.
  intros Hst. unfold terminal_updates.
  rewrite filter_cons_True by (destruct st; by auto).
  f_equal. apply terminal_updates_cache_calls.
Qed.

(** A delivery that returns has issued at most one terminal status update
    for its message: none, with the struct and the table untouched, or one,
    whose status is the status of the struct it returns. *)
Lemma sendMessage_terminal_updates script fb msg w msg' w' :
  sendMessage maxAttempts script fb msg w = Some (msg', w') →
  ∃ cs, calls (store w') = calls (store w) ++ cs
        ∧ ((terminal_updates (ID msg) cs = [] ∧ msg' = msg
            ∧ db (store w') = db (store w))
           ∨ (terminal_updates (ID msg) cs = [CallUpdateStatus (ID msg) (Status msg')]
              ∧ terminal (Status msg') = true)).
Proof.
  unfold sendMessage.
  destruct (Retry maxAttempts ctx_done attemptStep 1 script (msg, w))
    as [[b [msg1 w1]]|] eqn:Hrun; [|done].
  apply Retry_outcome in Hrun as [(-> & -> & Hst)|(-> & e & n & w0 & Hst & Hstep)]; simpl.
  - intros Hfb. exists (CallUpdateStatus (ID msg) StatusFailed :: cache_calls None).
    revert Hfb. unfold liftRepo, UpdateStatus, when, failed, logLine, mbind, mret,
      M_bind, M_ret. simpl.
    destruct (fb_save_fails fb); simpl; intros [= <- <-]; simpl;
      rewrite Hst; (split; [done|]); right;
      (split; [|done]); by apply (terminal_updates_own _ StatusFailed None).
  - intros [= <- <-]. rewrite <- Hst. clear Hst script w.
    destruct (http e) as [| |code body] eqn:Hhttp.
    1,2: destruct (attemptStep_retryable e n msg w0) as (? & Hno & _);
      [unfold retryable; by rewrite Hhttp|congruence].
    destruct (decide (code = StatusAccepted)) as [->|Hne].
    { destruct (attemptStep_accepted e n msg w0 body Hhttp)
        as (w2 & Hstep2 & Hcalls & _).
      rewrite Hstep in Hstep2. injection Hstep2 as -> <-.
      eexists. split; [exact Hcalls|]. right. split; [|done].
      by apply (terminal_updates_own _ StatusSuccess). }
    destruct (decide (StatusInternalServerError ≤ code)) as [Hhi|Hlo].
    { destruct (attemptStep_retryable e n msg w0) as (? & Hno & _); [|congruence].
      unfold retryable. rewrite Hhttp. by apply bool_decide_eq_true. }
    destruct (decide (StatusBadRequest ≤ code)) as [Hmid|Hlow].
    { destruct (attemptStep_client_error e n msg w0 code body Hhttp)
        as (w2 & Hstep2 & Hcalls & _); [lia|].
      rewrite Hstep in Hstep2. injection Hstep2 as -> <-.
      eexists. split; [exact Hcalls|]. right. split; [|done].
      by apply (terminal_updates_own _ StatusFailed None). }
    destruct (attemptStep_other e n msg w0 code body Hhttp Hne) as (w2 & Hstep2 & Hst2 & _);
      [lia|].
    rewrite Hstep in Hstep2. injection Hstep2 as -> <-.
    exists []. rewrite app_nil_r, Hst2. split; [done|]. by left.
Qed.

Lemma status_updates_own id st body :
  status_updates (CallUpdateStatus id st :: cache_calls body) = [(id, st)].
Proof. unfold cache_calls. by destruct (external_id body). Qed.

(** The status updates of a delivery that returns, all of them: none, with
    the table untouched, or one call of [UpdateStatus], for the message and
    with a terminal status, which saved the struct the delivery returns
    unless the save failed. *)
Lemma sendMessage_status_updates script fb msg w msg' w' :
  sendMessage maxAttempts script fb msg w = Some (msg', w') →
  ∃ cs, calls (store w') = calls (store w) ++ cs
        ∧ ((status_updates cs = [] ∧ db (store w') = db (store w))
           ∨ (status_updates cs = [(ID msg, Status msg')]
              ∧ terminal (Status msg') = true
              ∧ ID msg' = ID msg
              ∧ (db (store w') = db (store w)
                 ∨ db (store w') = save_row msg' (db (store w))))).
Proof.
  unfold sendMessage.
  destruct (Retry maxAttempts ctx_done attemptStep 1 script (msg, w))
    as [[b [msg1 w1]]|] eqn:Hrun; [|done].
  apply Retry_outcome in Hrun as [(-> & -> & Hst)|(-> & e & n & w0 & Hst & Hstep)]; simpl.
  - intros Hfb. exists (CallUpdateStatus (ID msg) StatusFailed :: cache_calls None).
    revert Hfb. unfold liftRepo, UpdateStatus, when, failed, logLine, mbind, mret,
      M_bind, M_ret. simpl.
    destruct (fb_save_fails fb); simpl; intros [= <- <-]; simpl;
      rewrite Hst; (split; [done|]); right;
      (split_and!; [done..|]); ((by left) || (by right)).
  - intros [= <- <-]. rewrite <- Hst. clear Hst script w.
    destruct (http e) as [| |code body] eqn:Hhttp.
    1,2: destruct (attemptStep_retryable e n msg w0) as (? & Hno & _);
      [unfold retryable; by rewrite Hhttp|congruence].
    destruct (decide (code = StatusAccepted)) as [->|Hne].
    { destruct (attemptStep_accepted e n msg w0 body Hhttp)
        as (w2 & Hstep2 & Hcalls & Hdb & _).
      rewrite Hstep in Hstep2. injection Hstep2 as -> <-.
      eexists. split; [exact Hcalls|]. right.
      rewrite status_updates_own. split_and!; [done..|].
      rewrite Hdb. destruct (save_fails e); (by left) || (by right). }
    destruct (decide (StatusInternalServerError ≤ code)) as [Hhi|Hlo].
    { destruct (attemptStep_retryable e n msg w0) as (? & Hno & _); [|congruence].
      unfold retryable. rewrite Hhttp. by apply bool_decide_eq_true. }
    destruct (decide (StatusBadRequest ≤ code)) as [Hmid|Hlow].
    { destruct (attemptStep_client_error e n msg w0 code body Hhttp)
        as (w2 & Hstep2 & Hcalls & Hdb & _); [lia|].
      rewrite Hstep in Hstep2. injection Hstep2 as -> <-.
      eexists. split; [exact Hcalls|]. right.
      split_and!; [done..|].
      rewrite Hdb. destruct (save_fails e); (by left) || (by right). }
    destruct (attemptStep_other e n msg w0 code body Hhttp Hne) as (w2 & Hstep2 & Hst2 & _);
      [lia|].
    rewrite Hstep in Hstep2. injection Hstep2 as -> <-.
    exists []. rewrite app_nil_r, Hst2. split; [done|]. by left.
Qed.
End update_count.

(** C9.  With a maximum of [k] attempts configured, when each of the [k]
    attempts is made and ends without a response or with a status code of 500
    or more, [sendMessage] returns after those [k] attempts (having sent one
    request for each of them that could build it) with the status of the
    message updated to [StatusFailed] by the update that follows the loop.
    That update is the only call to the repository: no idempotency record is
    written, and the cache is as before. *)
Theorem exhausted_attempts_mark_failed
    (k : nat) (script : list AttemptEnv) (fb : FallbackEnv)
    (msg : Message) (w : World) :
  (k ≤ length script)%nat →
  Forall (λ e, retried e = true) (take k script) →
  let msg' := with_status StatusFailed (with_updated_at (fb_now fb) msg) in
  ∃ w', sendMessage (Some k) script fb msg w = Some (msg', w')
        ∧ Status msg' = StatusFailed
        ∧ calls (store w') = calls (store w) ++ [CallUpdateStatus (ID msg) StatusFailed]
        ∧ cache (store w') = cache (store w)
        ∧ sent w' = sent w ++ replicate (requests (take k script)) (payload msg)
        ∧ db (store w') =
            (if fb_save_fails fb then db (store w) else save_row msg' (db (store w))).
Proof.
  intros Hlen Hall msg'.
  destruct (Retry_retried_prefix (Some k) (take k script) 1 msg w (drop k script) Hall)
    as (w1 & Hrun & Hst & Hsent).
  { rewrite length_take_le by done. simpl. apply bool_decide_eq_false. lia. }
  rewrite take_drop, length_take_le in Hrun by done.
  assert (Retry (Some k) ctx_done attemptStep (1 + k) (drop k script) (msg, w1)
          = Some (false, (msg, w1))) as Hstop.
  { destruct (drop k script); simpl; by rewrite bool_decide_eq_true_2 by lia. }
  unfold sendMessage. rewrite Hrun, Hstop. simpl. run_attempt.
  destruct (fb_save_fails fb); simpl; eexists; (split; [reflexivity|]); simpl;
    rewrite Hst; done.
Qed.

(* ===================================================================== *)
(** ** Properties of the pipeline *)
(* ===================================================================== *)

Section list_facts.
Context {A B : Type}.
Implicit Types (l : list A) (f g : A → list B).

Lemma lookup_middle l i x :
  l !! i = Some x →
  ∃ pre post, l = pre ++ x :: post
              ∧ (∀ y, <[i := y]> l = pre ++ y :: post)
              ∧ delete i l = pre ++ post.
Proof.
  intros Hi. exists (take i l), (drop (S i) l). split_and!.
  - by rewrite take_drop_middle.
  - intros y. apply insert_take_drop. by eapply lookup_lt_Some.
  - apply delete_take_drop.
Qed.

Lemma bind_sublist f g l :
  (∀ x, f x `sublist_of` g x) → l ≫= f `sublist_of` l ≫= g.
Proof.
  intros Hfg. induction l as [|x l IH]; [done|].
  rewrite !bind_cons. by apply sublist_app.
Qed.

Lemma bind_NoDup_disjoint f l i j x y :
  NoDup (l ≫= f) → i ≠ j → l !! i = Some x → l !! j = Some y →
  ∀ b, b ∈ f x → b ∉ f y.
Proof.
  revert i j. induction l as [|a l IH]; intros i j Hnd Hij Hi Hj b Hx Hy; [done|].
  rewrite bind_cons in Hnd. apply NoDup_app in Hnd as (_ & Hdisj & Hnd).
  destruct i as [|i], j as [|j]; simpl in *; simplify_eq.
  - apply (Hdisj b Hx). apply list_elem_of_bind. exists y.
    split; [done|]. by eapply list_elem_of_lookup_2.
  - apply (Hdisj b Hy). apply list_elem_of_bind. exists x.
    split; [done|]. by eapply list_elem_of_lookup_2.
  - eapply (IH i j); eauto.
Qed.
End list_facts.

Section ownership.
Implicit Types (txs : list Tx) (id : Z).

Lemma owned_ids_elem_of txs id :
  id ∈ owned_ids txs ↔ id ∈ locked_ids txs ∨ id ∈ claimed_ids txs.
Proof.
  unfold owned_ids, locked_ids, claimed_ids.
  rewrite !list_elem_of_bind. split.
  - intros (tx & Hid & Htx). destruct tx as [ms|ms now|ms|ms]; simpl in *.
    + left. by exists (TxSelected ms).
    + left. by exists (TxUpdated ms now).
    + right. by exists (TxCommitted ms).
    + by apply elem_of_nil in Hid.
  - intros [(tx & Hid & Htx)|(tx & Hid & Htx)]; exists tx; (split; [|done]);
      destruct tx as [ms|ms now|ms|ms]; simpl in *; done || by apply elem_of_nil in Hid.
Qed.

Lemma claimed_sublist_owned txs : claimed_ids txs `sublist_of` owned_ids txs.
Proof.
  apply bind_sublist. intros [ms|ms now|ms|ms]; simpl; done || apply sublist_nil_l.
Qed.
End ownership.

Section invariant.
Context (maxAttempts : option nat).
Implicit Types (s : System) (ev : Event) (id : Z) (txs : list Tx).

Lemma owned_ids_middle pre tx post :
  owned_ids (pre ++ tx :: post) = owned_ids pre ++ tx_owned tx ++ owned_ids post.
Proof. unfold owned_ids. by rewrite bind_app, bind_cons. Qed.

Lemma locked_ids_middle pre tx post :
  locked_ids (pre ++ tx :: post) = locked_ids pre ++ tx_locked tx ++ locked_ids post.
Proof. unfold locked_ids. by rewrite bind_app, bind_cons. Qed.

Lemma claimed_ids_middle pre tx post :
  claimed_ids (pre ++ tx :: post) = claimed_ids pre ++ tx_claimed tx ++ claimed_ids post.
Proof. unfold claimed_ids. by rewrite bind_app, bind_cons. Qed.

Lemma initial_consistent w :
  NoDup (ids_of (db (store w))) → consistent (initial w).
Proof.
  intros Hnd. split; simpl; try done; try apply NoDup_nil_2;
    by intros id ?%elem_of_nil.
Qed.

Lemma selected_pending locked limit (t : Table) id :
  NoDup (ids_of t) →
  id ∈ ids_of (select_pending_skip_locked locked limit t) →
  status_of id t = Some StatusPending ∧ id ∉ locked.
Proof.
  intros Hnd (m & -> & Hm)%list_elem_of_fmap.
  apply select_elem_of in Hm as (Ht & Hst & Hl). split; [|done].
  unfold status_of. rewrite (lookup_row_elem_of m t Hnd Ht). simpl. by rewrite Hst.
Qed.

Lemma Select_consistent s limit s' :
  consistent s → step maxAttempts (Select limit) s = Some s' → consistent s'.
Proof.
  intros [Hk Ho Hl Hc Hu Hp] [= <-].
  pose proof (selected_pending (locked_ids (txs s)) limit (table s)) as Hnew.
  split; simpl; try done.
  - change (txs s ++ ?l) with (txs s ++ TxSelected
      (select_pending_skip_locked (locked_ids (txs s)) limit (table s)) :: []).
    rewrite owned_ids_middle. simpl. rewrite !app_nil_r.
    apply NoDup_app. split_and!; [done| |by apply select_ids_NoDup].
    intros id [Hlk|Hcl]%owned_ids_elem_of Hsel.
    + by apply Hnew in Hsel as [_ ?].
    + apply Hc in Hcl as (st & Hst & Hne). apply Hnew in Hsel as [Hpend _]; [|done].
      congruence.
  - intros id. rewrite locked_ids_middle. simpl. rewrite !app_nil_r.
    intros [?|Hsel]%elem_of_app; [by apply Hl|]. by apply Hnew in Hsel as [? _].
  - intros id. rewrite claimed_ids_middle. simpl. rewrite !app_nil_r. apply Hc.
Qed.

Lemma Update_consistent s i now s' :
  consistent s → step maxAttempts (Update i now) s = Some s' → consistent s'.
Proof.
  intros [Hk Ho Hl Hc Hu Hp]. simpl.
  destruct (txs s !! i) as [[ms|ms now0|ms|ms]|] eqn:Hi; try done. intros [= <-].
  destruct (lookup_middle _ _ _ Hi) as (pre & post & Htxs & Hins & _).
  rewrite Htxs in Ho, Hl, Hc. rewrite owned_ids_middle in Ho.
  rewrite locked_ids_middle in Hl. rewrite claimed_ids_middle in Hc.
  split; unfold table in *; simpl in *;
    rewrite ?Hins, ?owned_ids_middle, ?locked_ids_middle, ?claimed_ids_middle;
    done.
Qed.

Lemma Rollback_consistent s i s' :
  consistent s → step maxAttempts (Rollback i) s = Some s' → consistent s'.
Proof.
  intros [Hk Ho Hl Hc Hu Hp]. simpl.
  destruct (txs s !! i) as [tx|] eqn:Hi; [|done].
  destruct (lookup_middle _ _ _ Hi) as (pre & post & Htxs & Hins & _).
  rewrite Htxs in Ho, Hl, Hc. rewrite owned_ids_middle in Ho.
  rewrite locked_ids_middle in Hl. rewrite claimed_ids_middle in Hc.
  assert (NoDup (owned_ids pre ++ owned_ids post)) as Ho'.
  { apply (sublist_NoDup _ _ Ho).
    apply sublist_app; [done|]. by apply sublist_inserts_l. }
  assert (∀ id, id ∈ locked_ids pre ++ locked_ids post →
                id ∈ locked_ids pre ++ tx_locked tx ++ locked_ids post) as Hsub.
  { intros id. rewrite !elem_of_app. tauto. }
  destruct tx as [ms|ms now|ms|ms]; try done; intros [= <-];
    (split; simpl;
     rewrite ?Hins, ?owned_ids_middle, ?locked_ids_middle, ?claimed_ids_middle;
     simpl; [done|done| |done|done|done]);
    intros id Hin; by apply Hl, Hsub.
Qed.

Lemma Commit_consistent s i s' :
  consistent s → step maxAttempts (Commit i) s = Some s' → consistent s'.
Proof.
  intros [Hk Ho Hl Hc Hu Hp]. unfold table in *. simpl.
  destruct (txs s !! i) as [[ms|ms now|ms|ms]|] eqn:Hi; try done. intros [= <-].
  destruct (lookup_middle _ _ _ Hi) as (pre & post & Htxs & Hins & _).
  rewrite Htxs in Ho, Hl, Hc. rewrite owned_ids_middle in Ho.
  rewrite locked_ids_middle in Hl. rewrite claimed_ids_middle in Hc.
  simpl in Ho, Hl, Hc.
  assert (NoDup (ids_of ms)) as Hms.
  { apply (sublist_NoDup _ _ Ho). apply sublist_inserts_l, sublist_inserts_r. done. }
  assert (∀ id, id ∈ ids_of ms → status_of id (table s) = Some StatusPending) as Hmine.
  { intros id Hin. apply Hl. rewrite !elem_of_app. tauto. }
  assert (∀ id, id ∈ locked_ids pre ++ locked_ids post → id ∉ ids_of ms) as Hothers.
  { apply NoDup_app in Ho as (_ & Hd1 & Ho). apply NoDup_app in Ho as (_ & Hd2 & _).
    intros id [Hin|Hin]%elem_of_app Hid.
    - apply (Hd1 id); [|apply elem_of_app; by left].
      apply owned_ids_elem_of. by left.
    - apply (Hd2 id Hid). apply owned_ids_elem_of. by left. }
  unfold table in *.
  split; unfold table; simpl;
    rewrite ?Hins, ?owned_ids_middle, ?locked_ids_middle, ?claimed_ids_middle; simpl.
  - by rewrite ids_of_update.
  - done.
  - intros id Hin.
    rewrite status_of_update, decide_False by by apply Hothers.
    apply Hl. revert Hin. rewrite !elem_of_app. tauto.
  - intros id Hin. rewrite status_of_update.
    destruct (decide (id ∈ ids_of ms)) as [Hid|Hid].
    + rewrite (Hmine id Hid). by exists StatusProcessing.
    + apply Hc. revert Hin. rewrite !elem_of_app. tauto.
  - unfold ids_of. rewrite fmap_app. apply NoDup_app. split_and!; [done| |done].
    intros id Hfl Hid. apply Hp in Hfl. apply Hmine in Hid. congruence.
  - intros id. unfold ids_of at 1. rewrite fmap_app. intros Hin.
    rewrite status_of_update.
    destruct (decide (id ∈ ids_of ms)) as [Hid|Hid].
    + by rewrite (Hmine id Hid).
    + apply elem_of_app in Hin as [?|?]; [by apply Hp | done].
Qed.

Lemma Send_consistent s j script fb s' :
  consistent s → step maxAttempts (Send j script fb) s = Some s' → consistent s'.
Proof.
  intros [Hk Ho Hl Hc Hu Hp]. simpl.
  destruct (inflight s !! j) as [msg|] eqn:Hj; [|done].
  destruct (sendMessage maxAttempts script fb msg (world s))
    as [[msg' w']|] eqn:Hsend; [|done].
  intros [= <-].
  destruct (lookup_middle _ _ _ Hj) as (pre & post & Hfl & _ & Hdel).
  apply sendMessage_table in Hsend as [Hid Hdb].
  assert (status_of (ID msg) (table s) = Some StatusProcessing) as Hmsg.
  { apply Hp. rewrite Hfl. unfold ids_of. rewrite fmap_app, fmap_cons.
    apply elem_of_app. right. left. }
  assert (NoDup (ids_of (delete j (inflight s)))) as Hu'.
  { apply (sublist_NoDup _ _ Hu). unfold ids_of. apply fmap_sublist, sublist_delete. }
  assert (∀ id, id ∈ ids_of (delete j (inflight s)) →
                id ∈ ids_of (inflight s) ∧ id ≠ ID msg) as Hrest.
  { intros id. rewrite Hdel, Hfl. rewrite Hfl in Hu. unfold ids_of in *.
    rewrite !fmap_app, fmap_cons in *. intros Hin.
    apply NoDup_app in Hu as (_ & Hd & [Hn _]%NoDup_cons).
    split; [revert Hin; rewrite !elem_of_app, elem_of_cons; tauto|].
    intros ->. apply elem_of_app in Hin as [Hin|Hin]; [|done].
    apply (Hd _ Hin). left. }
  destruct Hdb as [Hdb|[Hdb Hterm]].
  - split; simpl; unfold table in *; simpl; rewrite ?Hdb; try done.
    intros id Hin. by apply Hp, Hrest.
  - split; simpl; unfold table in *; simpl; rewrite ?Hdb; try done.
    + rewrite ids_of_save; [done|]. rewrite Hid. apply status_of_is_Some. by eexists.
    + intros id Hin. rewrite status_of_save, decide_False; [by apply Hl|].
      intros ->. apply Hl in Hin. congruence.
    + intros id Hin. rewrite status_of_save. case_decide; [|by apply Hc].
      eexists. split; [done|]. by destruct (Status msg').
    + intros id Hin. apply Hrest in Hin as [Hin Hne].
      rewrite status_of_save, decide_False by congruence. by apply Hp.
Qed.

Lemma step_consistent s ev s' :
  consistent s → step maxAttempts ev s = Some s' → consistent s'.
Proof.
  destruct ev; eauto using Select_consistent, Update_consistent,
    Commit_consistent, Rollback_consistent, Send_consistent.
Qed.

Lemma run_consistent evs : ∀ s s',
  consistent s → run maxAttempts evs s = Some s' → consistent s'.
Proof.
  induction evs as [|ev evs IH]; intros s s' Hs; simpl; [by intros [= <-]|].
  destruct (step maxAttempts ev s) as [s1|] eqn:Hstep; [|done].
  eauto using step_consistent.
Qed.
End invariant.

Section status_machine.
Context (maxAttempts : option nat).
Implicit Types (s : System) (ev : Event) (id : Z).

(** A claim run alone is the three events of its transaction in a row. *)
Lemma FetchAndLockMessages_as_events (w : World) (now : Time) (limit : Z) :
  let res := FetchAndLockMessages [] now limit NoFault (db (store w)) in
  run maxAttempts [Select limit; Update 0 now; Commit 0] (initial w)
  = Some {| world := set_table res.2 w;
            txs := [TxCommitted res.1.1];
            inflight := res.1.1 |}.
Proof. reflexivity. Qed.

Lemma step_legal s ev s' id :
  consistent s → step maxAttempts ev s = Some s' →
  legal_change (status_of id (table s)) (status_of id (table s')).
Proof.
  intros [Hk Ho Hl Hc Hu Hp]. unfold table in *.
  destruct ev as [limit|i clock|i|i|j script fb]; simpl.
  - intros [= <-]. by left.
  - destruct (txs s !! i) as [[ms|ms now|ms|ms]|]; try done. intros [= <-]. by left.
  - destruct (txs s !! i) as [[ms|ms now|ms|ms]|] eqn:Hi; try done. intros [= <-].
    unfold table. simpl.
    rewrite status_of_update. case_decide as Hid; [|by left].
    rewrite (Hl id); [right; exists StatusPending, StatusProcessing; by split_and!|].
    apply list_elem_of_bind. exists (TxUpdated ms now).
    split; [done|]. by eapply list_elem_of_lookup_2.
  - destruct (txs s !! i) as [[ms|ms now|ms|ms]|]; try done; intros [= <-]; by left.
  - destruct (inflight s !! j) as [msg|] eqn:Hj; [|done].
    destruct (sendMessage maxAttempts script fb msg (world s))
      as [[msg' w']|] eqn:Hsend; [|done].
    intros [= <-]. unfold table. simpl.
    apply sendMessage_table in Hsend as [Hid [->|[-> Hterm]]]; [by left|].
    rewrite status_of_save. case_decide as Heq; [|by left].
    rewrite (Hp id).
    + right. exists StatusProcessing, (Status msg').
      split_and!; [done..|]. by destruct (Status msg').
    + rewrite Heq, Hid. apply list_elem_of_fmap_2. by eapply list_elem_of_lookup_2.
Qed.

Lemma terminal_stable evs : ∀ s s' id st,
  consistent s → run maxAttempts evs s = Some s' →
  status_of id (table s) = Some st → terminal st = true →
  status_of id (table s') = Some st.
Proof.
  induction evs as [|ev evs IH]; intros s s' id st Hs; simpl.
  - by intros [= <-].
  - destruct (step maxAttempts ev s) as [s1|] eqn:Hstep; [|done].
    intros Hrun Hst Hterm. apply (IH s1); [by eapply step_consistent|done| |done].
    destruct (step_legal s ev s1 id Hs Hstep) as [Hsame|(a & b & Ha & Hb & Hedge)].
    + congruence.
    + rewrite Hst in Ha. injection Ha as <-. by destruct st, b.
Qed.

(** C1.  Whatever the interleaving of claims (calls of
    [FetchAndLockMessages], by any number of callers, each a transaction
    whose locking query skips the rows locked by the others) and of
    deliveries, on a table with unique identifiers: the batches of the
    claims that returned successfully have no identifier in common, taken
    all together; and no two transactions that were not rolled back, open
    or committed, hold the same identifier. *)
Theorem concurrent_claims_share_no_message
    (w : World) (evs : list Event) (s : System) :
  NoDup (ids_of (db (store w))) →
  run maxAttempts evs (initial w) = Some s →
  NoDup (claimed_ids (txs s))
  ∧ ∀ i j tx_i tx_j id,
      i ≠ j → txs s !! i = Some tx_i → txs s !! j = Some tx_j →
      id ∈ tx_owned tx_i → id ∉ tx_owned tx_j.
Proof.
  intros Hnd Hrun.
  pose proof (run_consistent maxAttempts evs _ _ (initial_consistent w Hnd) Hrun) as Hs.
  destruct Hs as [_ Ho _ _ _ _]. split.
  - apply (sublist_NoDup _ _ Ho), claimed_sublist_owned.
  - intros i j tx_i tx_j id Hij Hi Hj.
    exact (bind_NoDup_disjoint tx_owned (txs s) i j tx_i tx_j Ho Hij Hi Hj id).
Qed.

(** What each event does to the statuses, update by update: the calls it
    adds to the record of the repository, the status updates it performs
    (each row at most once), the edge each of them follows, and the rows it
    leaves alone. *)
Lemma step_updates s ev s' :
  consistent s → step maxAttempts ev s = Some s' →
  ∃ cs, calls (store (world s')) = calls (store (world s)) ++ cs
        ∧ NoDup (event_updates s ev cs).*1
        ∧ (∀ id b, (id, b) ∈ event_updates s ev cs →
             ∃ a, status_of id (table s) = Some a
                  ∧ legal_update a b = true
                  ∧ (status_of id (table s') = Some b ∨ table s' = table s))
        ∧ (∀ id, id ∉ (event_updates s ev cs).*1 →
             status_of id (table s') = status_of id (table s)).
Proof.
  intros [Hk Ho Hl Hc Hu Hp]. unfold table in *.
  assert (∀ s0 : System,
            calls (store (world s0)) = calls (store (world s0)) ++ []) as Hnil
    by (intros s0; by rewrite app_nil_r).
  destruct ev as [limit|i clock|i|i|j script fb]; simpl.
  - intros [= <-]. exists []. simpl.
    split_and!; [apply Hnil|apply NoDup_nil_2|by intros ?? ?%elem_of_nil|done].
  - destruct (txs s !! i) as [[ms|ms now0|ms|ms]|]; try done. intros [= <-].
    exists []. simpl.
    split_and!; [apply Hnil|apply NoDup_nil_2|by intros ?? ?%elem_of_nil|done].
  - destruct (txs s !! i) as [[ms|ms now|ms|ms]|] eqn:Hi; try done. intros [= <-].
    exists []. unfold table. simpl.
    destruct (lookup_middle _ _ _ Hi) as (pre & post & Htxs & _).
    assert (((λ id : Z, (id, StatusProcessing)) <$> ids_of ms).*1 = ids_of ms) as Hkeys.
    { rewrite <- list_fmap_compose. apply list_fmap_id. }
    rewrite Hkeys. split_and!.
    + apply Hnil.
    + rewrite Htxs, owned_ids_middle in Ho. simpl in Ho.
      apply (sublist_NoDup _ _ Ho). apply sublist_inserts_l, sublist_inserts_r. done.
    + intros id b (id' & [= -> ->] & Hid)%list_elem_of_fmap.
      exists StatusPending.
      assert (status_of id' (db (store (world s))) = Some StatusPending) as Hpend.
      { apply Hl. apply list_elem_of_bind. exists (TxUpdated ms now).
        split; [done|]. by eapply list_elem_of_lookup_2. }
      split_and!; [done..|]. left.
      by rewrite status_of_update, decide_True, Hpend.
    + intros id Hid. by rewrite status_of_update, decide_False.
  - destruct (txs s !! i) as [[ms|ms now|ms|ms]|]; try done; intros [= <-];
      exists []; simpl;
      (split_and!; [apply Hnil|apply NoDup_nil_2|by intros ?? ?%elem_of_nil|done]).
  - destruct (inflight s !! j) as [msg|] eqn:Hj; [|done].
    destruct (sendMessage maxAttempts script fb msg (world s))
      as [[msg' w']|] eqn:Hsend; [|done].
    intros [= <-]. unfold table. simpl.
    assert (status_of (ID msg) (db (store (world s))) = Some StatusProcessing) as Hmsg.
    { apply Hp. apply list_elem_of_fmap_2. by eapply list_elem_of_lookup_2. }
    apply sendMessage_status_updates in Hsend
      as (cs & Hcalls & [[Hups Hdb]|(Hups & Hterm & Hid & Hdb)]);
      exists cs; (split; [exact Hcalls|]); simpl; rewrite Hups; simpl.
    + split_and!; [apply NoDup_nil_2|by intros ?? ?%elem_of_nil|by rewrite Hdb].
    + split_and!.
      * apply NoDup_singleton.
      * intros id b Hin%list_elem_of_singleton. injection Hin as -> ->.
        exists StatusProcessing. split_and!; [done|by destruct (Status msg')|].
        destruct Hdb as [-> | ->]; [by right|left].
        by rewrite status_of_save, decide_True.
      * intros id Hid'%not_elem_of_cons. destruct Hid' as [Hne _].
        destruct Hdb as [-> | ->]; [done|].
        rewrite status_of_save, decide_False; [done|congruence].
Qed.

(** C2.  In every state the pipeline can reach from a table with unique
    identifiers, by claims and deliveries in any interleaving, the status
    updates follow the state machine one by one.  An event performs the
    status updates [event_updates] lists: the update statement of a claim,
    one write for each row of its batch; the calls of [UpdateStatus] a
    delivery issues, read off the record of the calls to the repository; no
    other.  No event updates the status of a row twice.  Each update finds
    the row with a status from which the status it writes is the next one,
    [StatusPending] for [StatusProcessing], [StatusProcessing] for
    [StatusSuccess] or [StatusFailed], and leaves that status stored, or, if
    the save fails, leaves the table as it was.  The status of a row that no
    update of the event names is not changed.  And a status that is
    [StatusSuccess] or [StatusFailed] stays what it is, whatever happens
    later. *)
Theorem status_follows_state_machine
    (w : World) (evs : list Event) (s : System) :
  NoDup (ids_of (db (store w))) →
  run maxAttempts evs (initial w) = Some s →
  (∀ ev s', step maxAttempts ev s = Some s' →
     ∃ cs, calls (store (world s')) = calls (store (world s)) ++ cs
           ∧ NoDup (event_updates s ev cs).*1
           ∧ (∀ id b, (id, b) ∈ event_updates s ev cs →
                ∃ a, status_of id (table s) = Some a
                     ∧ legal_update a b = true
                     ∧ (status_of id (table s') = Some b ∨ table s' = table s))
           ∧ (∀ id, id ∉ (event_updates s ev cs).*1 →
                status_of id (table s') = status_of id (table s)))
  ∧ (∀ later s' id st,
       run maxAttempts later s = Some s' →
       status_of id (table s) = Some st → terminal st = true →
       status_of id (table s') = Some st).
Proof.
  intros Hnd Hrun.
  pose proof (run_consistent maxAttempts evs _ _ (initial_consistent w Hnd) Hrun) as Hs.
  split.
  - intros ev s'. by apply step_updates.
  - intros later s' id st. by apply terminal_stable.
Qed.
End status_machine.

Section one_cycle.
Context (maxAttempts : option nat).

Lemma sendAll_as_events env (msgs : list Message) : ∀ w w' claims,
  sendAll maxAttempts env msgs w = Some w' →
  run maxAttempts ((λ m, Send 0 (env m).1 (env m).2) <$> msgs)
      {| world := w; txs := claims; inflight := msgs |}
  = Some {| world := w'; txs := claims; inflight := [] |}.
Proof.
  induction msgs as [|m msgs IH]; intros w w' claims; simpl.
  - by intros [= <-].
  - destruct (sendMessage maxAttempts (env m).1 (env m).2 m w) as [[m' w1]|]; [|done].
    apply IH.
Qed.

(** One cycle of a scheduler run alone is a path of the pipeline: the three
    events of the claim, then the delivery of each message of the batch. *)
Lemma processBatch_as_events now batch env (w w' : World) :
  processBatch maxAttempts [] now batch NoFault env w = Some w' →
  let msgs := (FetchAndLockMessages [] now batch NoFault (db (store w))).1.1 in
  run maxAttempts
      ([Select batch; Update 0 now; Commit 0]
         ++ ((λ m, Send 0 (env m).1 (env m).2) <$> msgs))
      (initial w)
  = Some {| world := w'; txs := [TxCommitted msgs]; inflight := [] |}.
Proof.
  unfold processBatch. simpl. unfold table. simpl.
  remember (select_pending_skip_locked [] batch (db (store w))) as msgs eqn:Hmsgs.
  case_decide as Hlen.
  - intros [= <-]. apply nil_length_inv in Hlen. by rewrite Hlen.
  - apply sendAll_as_events.
Qed.

(** A claim that fails ends the cycle: nothing is delivered, and the table is
    as it was. *)
Lemma processBatch_failed_claim locked now batch fault env (w : World) :
  fault ≠ NoFault →
  ∃ w', processBatch maxAttempts locked now batch fault env w = Some w'
        ∧ db (store w') = db (store w) ∧ sent w' = sent w
        ∧ calls (store w') = calls (store w).
Proof. intros Hf. destruct fault; [done|..]; by eexists. Qed.
End one_cycle.

(* ===================================================================== *)
(** ** Properties of the scheduler *)
(* ===================================================================== *)


(** C3, on the code.  [Start] never sets [isRunning], so the guard at its
    head never fires: the first call leaves one scheduler goroutine running
    and the flag unset, and a second call in a row starts a second goroutine
    and runs a second immediate cycle. *)
Theorem Start_twice_starts_two_loops :
  Start NewMessageSenderService
    = {| isRunning := false; live := 1; stopped := 0; cycles := 1 |}
  ∧ Start (Start NewMessageSenderService)
    = {| isRunning := false; live := 2; stopped := 0; cycles := 2 |}
  ∧ Start (Start NewMessageSenderService) ≠ Start NewMessageSenderService.
Proof. split_and!; [reflexivity..|discriminate]. Qed.

(** C4, on the code.  After [Start] the flag is still unset, so [Stop]
    returns at its guard: nothing is sent on [stopChan], the goroutine stays
    live with its ticker and its context, and the next tick runs a cycle. *)
Theorem Stop_after_Start_stops_nothing :
  Stop (Start NewMessageSenderService) = Some (Start NewMessageSenderService)
  ∧ calls_from [CallStart; CallStop] NewMessageSenderService
    = Some {| isRunning := false; live := 1; stopped := 0; cycles := 1 |}
  ∧ calls_from [CallStart; CallStop; TickerFires] NewMessageSenderService
    = Some {| isRunning := false; live := 1; stopped := 0; cycles := 2 |}.
Proof. split_and!; reflexivity. Qed.

(* ===================================================================== *)
(** ** The properties on sample data *)
(* ===================================================================== *)

(** C6, on the code.  A message in progress whose first attempt is answered
    with 200: the closure reports "stop" without an update, the retrier
    yields [true], and [sendMessage] returns having issued no call to the
    repository.  No terminal status update is issued; the row stays in
    progress. *)
Theorem answer_200_issues_no_terminal_update :
  sendMessage (Some 3%nat) [answer 200 None] fallback (hello 1 StatusPending)
              (world_of [hello 1 StatusProcessing])
  = Some (hello 1 StatusPending,
          {| store := {| db := [hello 1 StatusProcessing]; cache := ∅; calls := [] |};
             log := [];
             sent := [payload (hello 1 StatusPending)] |})
  ∧ terminal_updates 1 [] = [].
Proof. split; reflexivity. Qed.

(** Two server errors, then 202 with a message identifier, three attempts
    allowed: the message is marked delivered and one record is written. *)
Lemma accepted_delivery_witness :
  let pre := [answer 500 None; answer 503 None] in
  let e := answer 202 accepted_body in
  let msg := hello 1 StatusPending in
  let w := world_of [hello 1 StatusProcessing] in
  Forall (λ e, retried e = true) pre
  ∧ exhausted (Some 3%nat) 3 = false
  ∧ ctx_done e = false
  ∧ http e = Response StatusAccepted accepted_body
  ∧ ∃ w', sendMessage (Some 3%nat) (pre ++ e :: []) fallback msg w
            = Some (with_status StatusSuccess (with_updated_at (update_now e) msg), w')
          ∧ calls (store w')
            = [CallUpdateStatus 1 StatusSuccess; CallCacheMessage "67f2f8a8"]
          ∧ status_of 1 (db (store w')) = Some StatusSuccess.
Proof.
  intros pre e msg w.
  assert (Forall (λ e, retried e = true) pre) as Hpre by (repeat constructor).
  split_and!; [exact Hpre|reflexivity..|].
  destruct (accepted_delivery_marks_success_and_records (Some 3%nat) pre e [] fallback
              msg w accepted_body Hpre eq_refl eq_refl eq_refl)
    as (w' & Hsend & _ & Hcalls & Hdb & _).
  exists w'. split_and!; [exact Hsend|exact Hcalls|].
  rewrite Hdb. reflexivity.
Defined.

(** 404 on the first attempt: the message is marked failed after one
    request, and the 202 that a second attempt would have met is never asked
    for. *)
Lemma client_error_witness :
  let e := answer 404 None in
  let msg := hello 1 StatusPending in
  let w := world_of [hello 1 StatusProcessing] in
  Forall (λ e, retried e = true) []
  ∧ exhausted (Some 3%nat) 1 = false
  ∧ ctx_done e = false
  ∧ http e = Response 404 None
  ∧ StatusBadRequest ≤ 404 < StatusInternalServerError
  ∧ ∃ w', sendMessage (Some 3%nat) ([] ++ e :: [answer 202 accepted_body]) fallback msg w
            = Some (with_status StatusFailed (with_updated_at (update_now e) msg), w')
          ∧ calls (store w') = [CallUpdateStatus 1 StatusFailed]
          ∧ sent w' = [payload msg]
          ∧ status_of 1 (db (store w')) = Some StatusFailed.
Proof.
  intros e msg w.
  assert (StatusBadRequest ≤ 404 < StatusInternalServerError) as Hcode
    by (unfold StatusBadRequest, StatusInternalServerError; lia).
  split_and!; [apply Forall_nil_2|reflexivity|reflexivity|reflexivity|apply Hcode|apply Hcode|].
  destruct (client_error_marks_failed_without_retry (Some 3%nat) [] e
              [answer 202 accepted_body] fallback msg w 404 None
              (Forall_nil_2 _) eq_refl eq_refl eq_refl Hcode)
    as (w' & Hsend & _ & Hcalls & Hsent & Hdb & _).
  exists w'. split_and!; [exact Hsend|exact Hcalls|exact Hsent|].
  rewrite Hdb. reflexivity.
Defined.

(** Three server errors, three attempts allowed: the message is marked failed
    after three requests and the cache stays empty. *)
Lemma exhausted_attempts_witness :
  let script := [answer 500 None; answer 502 None; answer 503 None] in
  let msg := hello 1 StatusPending in
  let w := world_of [hello 1 StatusProcessing] in
  (3 ≤ length script)%nat
  ∧ Forall (λ e, retried e = true) (take 3 script)
  ∧ ∃ w', sendMessage (Some 3%nat) script fallback msg w
            = Some (with_status StatusFailed (with_updated_at (fb_now fallback) msg), w')
          ∧ calls (store w') = [CallUpdateStatus 1 StatusFailed]
          ∧ cache (store w') = ∅
          ∧ length (sent w') = 3%nat
          ∧ status_of 1 (db (store w')) = Some StatusFailed.
Proof.
  intros script msg w.
  assert (Forall (λ e, retried e = true) (take 3 script)) as Hall by (repeat constructor).
  assert (3 ≤ length script)%nat as Hlen by (simpl; lia).
  split_and!; [exact Hlen|exact Hall|].
  destruct (exhausted_attempts_mark_failed 3 script fallback msg w Hlen Hall)
    as (w' & Hsend & _ & Hcalls & Hcache & Hsent & Hdb).
  exists w'. split_and!; [exact Hsend|exact Hcalls|exact Hcache| |].
  - rewrite Hsent. reflexivity.
  - rewrite Hdb. reflexivity.
Defined.

Lemma three_pending_keys_unique : NoDup (ids_of three_pending).
Proof. by apply (bool_decide_unpack _). Qed.

(** The two overlapping claims of [two_claims] end with the batches [1; 2]
    and [3]. *)
Lemma concurrent_claims_witness :
  NoDup (ids_of (db (store (world_of three_pending))))
  ∧ ∃ s, run (Some 3%nat) two_claims (initial (world_of three_pending)) = Some s
         ∧ txs s = [TxCommitted [hello 1 StatusPending; hello 2 StatusPending];
                    TxCommitted [hello 3 StatusPending]]
         ∧ NoDup (claimed_ids (txs s)).
Proof.
  split; [exact three_pending_keys_unique|].
  destruct (run (Some 3%nat) two_claims (initial (world_of three_pending)))
    as [s|] eqn:Hrun; [|by vm_compute in Hrun].
  exists s. split_and!; [reflexivity| |].
  - vm_compute in Hrun. by injection Hrun as <-.
  - exact (proj1 (concurrent_claims_share_no_message (Some 3%nat)
                    (world_of three_pending) two_claims s
                    three_pending_keys_unique Hrun)).
Defined.

(** After [two_claims] row 3 is delivered and row 1 is in flight: the
    delivery of row 1, accepted, performs the one update of row 1 from
    [StatusProcessing] to [StatusSuccess]; row 3 stays delivered. *)
Lemma status_machine_witness :
  NoDup (ids_of (db (store (world_of three_pending))))
  ∧ ∃ s, run (Some 3%nat) two_claims (initial (world_of three_pending)) = Some s
         ∧ status_of 3 (table s) = Some StatusSuccess
         ∧ status_of 1 (table s) = Some StatusProcessing
         ∧ (∃ s' cs,
              step (Some 3%nat) (Send 0 [answer 202 accepted_body] fallback) s = Some s'
              ∧ calls (store (world s')) = calls (store (world s)) ++ cs
              ∧ cs = [CallUpdateStatus 1 StatusSuccess; CallCacheMessage "67f2f8a8"]
              ∧ (∀ id b, (id, b) ∈ [(1, StatusSuccess)] →
                   ∃ a, status_of id (table s) = Some a
                        ∧ legal_update a b = true
                        ∧ (status_of id (table s') = Some b ∨ table s' = table s))
              ∧ (∀ id, id ∉ [1] →
                   status_of id (table s') = status_of id (table s)))
         ∧ (∀ later s' id st,
              run (Some 3%nat) later s = Some s' →
              status_of id (table s) = Some st → terminal st = true →
              status_of id (table s') = Some st).
Proof.
  split; [exact three_pending_keys_unique|].
  destruct (run (Some 3%nat) two_claims (initial (world_of three_pending)))
    as [s|] eqn:Hrun; [|by vm_compute in Hrun].
  pose proof (status_follows_state_machine (Some 3%nat)
                (world_of three_pending) two_claims s
                three_pending_keys_unique Hrun) as [Hstep Hlater].
  assert (status_of 3 (table s) = Some StatusSuccess
          ∧ status_of 1 (table s) = Some StatusProcessing
          ∧ calls (store (world s))
            = [CallUpdateStatus 3 StatusSuccess; CallCacheMessage "67f2f8a8";
               CallUpdateStatus 2 StatusFailed]
          ∧ ∃ s', step (Some 3%nat) (Send 0 [answer 202 accepted_body] fallback) s
                  = Some s'
                  ∧ calls (store (world s'))
                    = [CallUpdateStatus 3 StatusSuccess; CallCacheMessage "67f2f8a8";
                       CallUpdateStatus 2 StatusFailed]
                      ++ [CallUpdateStatus 1 StatusSuccess; CallCacheMessage "67f2f8a8"])
    as (Hst3 & Hst1 & Hbefore & s' & Hsend & Hafter).
  { vm_compute in Hrun. injection Hrun as <-. split_and!; [reflexivity..|].
    eexists. split; reflexivity. }
  exists s. split_and!; [reflexivity|exact Hst3|exact Hst1| |exact Hlater].
  destruct (Hstep _ _ Hsend) as (cs & Hcalls & _ & Hedge & Hrest).
  assert (cs = [CallUpdateStatus 1 StatusSuccess; CallCacheMessage "67f2f8a8"]) as Hcs.
  { rewrite Hafter, Hbefore in Hcalls. symmetry. by apply app_inv_head in Hcalls. }
  rewrite Hcs in Hedge, Hrest.
  exists s', cs. split_and!; [exact Hsend|exact Hcalls|exact Hcs|exact Hedge|exact Hrest].
Defined.

(* ===================================================================== *)
(** ** Further properties of the repository *)
(* ===================================================================== *)

Section claims_and_rows.
Implicit Types (t : Table) (m r : Message) (id : Z).

Lemma same_key_same_row t m r :
  NoDup (ids_of t) → m ∈ t → r ∈ t → ID m = ID r → m = r.
Proof.
  intros Hnd Hm Hr Hid.
  pose proof (lookup_row_elem_of m t Hnd Hm) as H1.
  pose proof (lookup_row_elem_of r t Hnd Hr) as H2.
  rewrite Hid in H1. congruence.
Qed.

Lemma claimed_key_iff locked limit t r :
  NoDup (ids_of t) → r ∈ t →
  ID r ∈ ids_of (select_pending_skip_locked locked limit t)
  ↔ r ∈ select_pending_skip_locked locked limit t.
Proof.
  intros Hnd Hr. split.
  - intros (m & Hid & Hm)%list_elem_of_fmap.
    pose proof (select_elem_of _ _ _ _ Hm) as (Hmt & _).
    by rewrite (same_key_same_row t r m Hnd Hr Hmt Hid).
  - apply list_elem_of_fmap_2.
Qed.


Lemma select_length locked limit t :
  0 ≤ limit →
  length (select_pending_skip_locked locked limit t)
  = Nat.min (Z.to_nat limit)
            (length (filter (λ m, Status m = StatusPending ∧ ID m ∉ locked) t)).
Proof.
  intros Hlimit. unfold select_pending_skip_locked, Limit.
  rewrite decide_False by lia. by rewrite length_take.
Qed.

(** With a limit that is not negative, a claim returns as many rows as the
    limit allows and the table has to offer, the smaller of the two numbers;
    on offer are the pending rows that no other open transaction holds a
    lock on. *)
Theorem claim_batch_size
    (locked : list Z) (now : Time) (limit : Z) (t : Table) :
  0 ≤ limit →
  length (FetchAndLockMessages locked now limit NoFault t).1.1
  = Nat.min (Z.to_nat limit)
            (length (filter (λ m, Status m = StatusPending ∧ ID m ∉ locked) t)).
Proof. apply select_length. Qed.

(** A claim made on the table a claim left behind returns none of the
    messages the first one returned. *)
Theorem second_claim_returns_other_messages
    (locked1 locked2 : list Z) (now1 now2 : Time) (limit1 limit2 : Z) (t : Table) :
  let first := FetchAndLockMessages locked1 now1 limit1 NoFault t in
  let second := FetchAndLockMessages locked2 now2 limit2 NoFault first.2 in
  Forall (λ m, ID m ∉ ids_of first.1.1) second.1.1.
Proof.
  simpl. apply Forall_forall. intros m Hm Hid.
  apply select_elem_of in Hm as (Hm & Hst & _).
  unfold update_status_where_id_in in Hm.
  apply list_elem_of_fmap in Hm as (r & -> & Hr).
  case_decide as Hr'; simpl in *; [done|]. contradiction.
Qed.

(** A claim whose limit covers the rows on offer leaves no pending row but
    those that other open transactions hold a lock on: a later claim,
    whatever its limit and whatever is locked by then, returns only rows that
    were locked during the first one, and none if there were none. *)
Theorem claim_of_everything_leaves_nothing
    (locked locked' : list Z) (now now' : Time) (limit limit' : Z) (t : Table) :
  (length (filter (λ m, Status m = StatusPending ∧ ID m ∉ locked) t)
   ≤ Z.to_nat limit)%nat →
  let first := FetchAndLockMessages locked now limit NoFault t in
  let later := FetchAndLockMessages locked' now' limit' NoFault first.2 in
  Forall (λ m, Status m = StatusPending → ID m ∈ locked) first.2
  ∧ Forall (λ m, ID m ∈ locked) later.1.1
  ∧ (locked = [] → later.1.1 = []).
Proof.
  intros Hall. simpl.
  assert (select_pending_skip_locked locked limit t
          = filter (λ m, Status m = StatusPending ∧ ID m ∉ locked) t) as Hsel.
  { unfold select_pending_skip_locked, Limit.
    case_decide; [done|]. by apply take_ge. }
  assert (Forall (λ m, Status m = StatusPending → ID m ∈ locked)
            (update_status_where_id_in now
               (ids_of (select_pending_skip_locked locked limit t))
               StatusProcessing t)) as Hleft.
  { rewrite Hsel. apply Forall_forall. intros m Hm.
    unfold update_status_where_id_in in Hm.
    apply list_elem_of_fmap in Hm as (r & -> & Hr).
    case_decide as Hid; simpl; [done|].
    intros Hst. destruct (decide (ID r ∈ locked)) as [|Hfree]; [done|].
    destruct Hid. apply list_elem_of_fmap_2. by apply list_elem_of_filter. }
  assert (Forall (λ m, ID m ∈ locked)
            (select_pending_skip_locked locked' limit'
               (update_status_where_id_in now
                  (ids_of (select_pending_skip_locked locked limit t))
                  StatusProcessing t))) as Hlater.
  { apply Forall_forall. intros m Hm.
    apply select_elem_of in Hm as (Hm & Hst & _).
    by apply (proj1 (Forall_forall _ _) Hleft). }
  split_and!; [done..|].
  intros ->. destruct (select_pending_skip_locked locked' limit' _) as [|m ms]; [done|].
  apply Forall_cons in Hlater as [Hm _]. by apply elem_of_nil in Hm.
Qed.
End claims_and_rows.

Section sent_messages.
Implicit Types (t : Table) (m r : Message) (id : Z) (rp : repo).

Lemma update_keeps_sent now ids (l : list Message) :
  Forall (λ r, ID r ∈ ids → Status r ≠ StatusSuccess) l →
  filter (λ m, Status m = StatusSuccess)
         (update_status_where_id_in now ids StatusProcessing l)
  = filter (λ m, Status m = StatusSuccess) l.
Proof.
  unfold update_status_where_id_in, Table.
  induction 1 as [|r l Hr _ IH]; [done|].
  rewrite fmap_cons, !filter_cons, IH.
  destruct (decide (ID r ∈ ids)) as [Hid|Hid]; simpl; [|done].
  by rewrite (decide_False (P := Status r = StatusSuccess)) by by apply Hr.
Qed.

Lemma save_row_NoDup msg t : NoDup (ids_of t) → NoDup (ids_of (save_row msg t)).
Proof.
  intros Hnd. destruct (decide (ID msg ∈ ids_of t)) as [Hin|Hout].
  - by rewrite ids_of_save.
  - assert (save_row msg t = t ++ [msg]) as ->.
    { clear Hnd. induction t as [|m t IH]; simpl; [done|].
      unfold ids_of in Hout. rewrite fmap_cons, not_elem_of_cons in Hout.
      destruct Hout as [Hne Hout].
      rewrite decide_False by congruence. f_equal. by apply IH. }
    unfold ids_of. rewrite fmap_app. apply NoDup_app. split_and!; [done| |].
    + intros id Hid ->%list_elem_of_singleton. done.
    + apply NoDup_singleton.
Qed.

(** Claiming never changes what [GetSentMessages] returns: with unique keys,
    the list of delivered messages is the same after a claim as before,
    whether the claim succeeds or fails. *)
Theorem claim_keeps_sent_messages
    (locked : list Z) (now : Time) (limit : Z) (fault : TxFault) (rp : repo) :
  NoDup (ids_of (db rp)) →
  GetSentMessages (set_db (FetchAndLockMessages locked now limit fault (db rp)).2 rp)
  = GetSentMessages rp.
Proof.
  intros Hnd. unfold GetSentMessages.
  destruct fault; simpl; try done.
  apply update_keeps_sent, Forall_forall. intros r Hr Hid.
  apply (claimed_key_iff locked limit _ r Hnd Hr) in Hid.
  apply select_elem_of in Hid as (_ & -> & _). done.
Qed.

(** [UpdateStatus] and [GetSentMessages] agree: once the status of a message
    is saved as [StatusSuccess], [GetSentMessages] lists the struct as
    updated; once it is saved as anything else, [GetSentMessages] lists no
    message with its identifier (keys being unique).  When the save fails,
    the list is what it was. *)
Theorem UpdateStatus_shows_in_sent_messages
    (now : Time) (save_fails : bool) (msg : Message)
    (status : MessageStatus) (rp : repo) :
  NoDup (ids_of (db rp)) →
  let res := UpdateStatus now save_fails msg status rp in
  if save_fails then GetSentMessages res.2 = GetSentMessages rp
  else if decide (status = StatusSuccess)
       then res.1.1 ∈ GetSentMessages res.2
       else Forall (λ m, ID m ≠ ID msg) (GetSentMessages res.2).
Proof.
  intros Hnd. unfold UpdateStatus, GetSentMessages.
  destruct save_fails; simpl; [done|].
  set (msg' := with_status status (with_updated_at now msg)).
  case_decide as Hst.
  - apply list_elem_of_filter. split; [by subst|].
    by apply (lookup_row_Some (ID msg')), lookup_row_save_eq.
  - apply Forall_forall. intros m [Hm Hin]%list_elem_of_filter Hid.
    assert (m = msg') as ->; [|by subst msg'; simpl in *].
    apply (same_key_same_row (save_row msg' (db rp))); [by apply save_row_NoDup|done| |done].
    by apply (lookup_row_Some (ID msg')), lookup_row_save_eq.
Qed.
End sent_messages.

Section cache_records.
Implicit Types (rp : repo) (msgID : string).

Lemma cache_key_inj msgID msgID' : cache_key msgID = cache_key msgID' → msgID = msgID'.
Proof. unfold cache_key. intros [= H]. exact H. Qed.

(** Writing an idempotency record and reading the cache: after
    [CacheMessage] for an identifier, the cache holds under the key
    ["sent_msg:"] followed by the identifier the identifier and the time
    given, to expire after 24 hours, and holds under every other key what it
    held before; the table is not touched.  The keys of different
    identifiers are different, so the record of one message never replaces
    that of another.  When the cache refuses the write, it is left as it
    was. *)
Theorem CacheMessage_then_lookup
    (set_fails : bool) (msgID msgID' : string) (sentTime : Time) (rp : repo) :
  let res := CacheMessage set_fails msgID sentTime rp in
  db res.2 = db rp
  ∧ ("sent_msg:" +:+ msgID' = "sent_msg:" +:+ msgID ↔ msgID' = msgID)
  ∧ cache res.2 !! ("sent_msg:" +:+ msgID')
    = (if set_fails then cache rp !! ("sent_msg:" +:+ msgID')
       else if decide (msgID' = msgID)
            then Some ({| messageId := msgID; sentAt := sentTime |},
                       24 * 3600 * 1000000000)
            else cache rp !! ("sent_msg:" +:+ msgID'))
  ∧ ∀ key, key ≠ "sent_msg:" +:+ msgID → cache res.2 !! key = cache rp !! key.
Proof.
  assert ("sent_msg:" +:+ msgID' = "sent_msg:" +:+ msgID ↔ msgID' = msgID) as Hinj
    by (split; [apply cache_key_inj | congruence]).
  unfold CacheMessage, set_cache, record_call.
  destruct set_fails; cbn [fst snd db cache]; (split_and!; [done..| |]).
  - done.
  - done.
  - case_decide as Hid.
    + subst. by rewrite lookup_insert_eq.
    + rewrite lookup_insert_ne; [done|].
      intros Heq%cache_key_inj. by apply Hid.
  - intros key Hkey. by rewrite lookup_insert_ne.
Qed.
End cache_records.

(* ===================================================================== *)
(** ** Further properties of a delivery *)
(* ===================================================================== *)

Section attempts.
Implicit Types (e : AttemptEnv) (msg : Message) (w : World).

(** An attempt asks for another one exactly when it got no response (the
    request could not be built, or the client reported an error) or a status
    code of 500 or more; every other answer, 202 and the client errors but
    also any code below 400, ends the loop. *)
Theorem retryFunc_asks_again_iff
    (e : AttemptEnv) (attempt : nat) (msg : Message) (w : World) :
  (retryFunc e attempt msg w).1.1
  = match http e with
    | RequestError | TransportError => false
    | Response code _ => bool_decide (code < 500)
    end.
Proof.
  run_attempt. destruct (http e) as [| |code body]; simpl; [done..|].
  repeat case_decide; simpl;
    repeat match goal with
           | |- context [save_fails e] => destruct (save_fails e); simpl
           | |- context [match ?b with Some _ => _ | None => _ end] =>
               destruct b; simpl
           | |- context [decide ?P] => destruct (decide P); simpl
           | |- context [cache_fails e] => destruct (cache_fails e); simpl
           end;
    try done; exfalso; lia.
Qed.

(** An attempt hands at most one request to the HTTP client: none when the
    request cannot be built, in which case the attempt changes nothing but
    the log and asks for another attempt; and otherwise exactly one, with the
    phone number and the content of the message, whatever comes back.  It
    keeps the identifier, the content, the phone number and the creation time
    of the struct, and it only adds to the log and to the calls issued. *)
Theorem retryFunc_sends_one_request
    (e : AttemptEnv) (attempt : nat) (msg : Message) (w : World) :
  let res := retryFunc e attempt msg w in
  match http e with
  | RequestError =>
    sent res.2 = sent w ∧ store res.2 = store w ∧ res.1 = (false, msg)
  | TransportError | Response _ _ =>
    sent res.2 = sent w ++ [{| to := PhoneNumber msg; content := Content msg |}]
  end
  ∧ content_of res.1.2 = content_of msg
  ∧ log w `prefix_of` log res.2
  ∧ calls (store w) `prefix_of` calls (store res.2).
Proof.
  run_attempt. destruct (http e) as [| |code body]; simpl.
  1,2: split_and!; [done..| |done]; by apply prefix_app_r.
  repeat case_decide; simpl;
    repeat match goal with
           | |- context [save_fails e] => destruct (save_fails e); simpl
           | |- context [match ?b with Some _ => _ | None => _ end] =>
               destruct b; simpl
           | |- context [decide ?P] => destruct (decide P); simpl
           | |- context [cache_fails e] => destruct (cache_fails e); simpl
           end;
    (split_and!; [done|done|..]);
    repeat apply prefix_app_r; done.
Qed.

(** What an attempt can do to the store: to the table, nothing, or save the
    struct it returns under the identifier of the message, and that only on
    202 or on a status code from 400 to 499; to the cache, nothing unless the
    answer is 202. *)
Theorem retryFunc_store_effects
    (e : AttemptEnv) (attempt : nat) (msg : Message) (w : World) :
  let res := retryFunc e attempt msg w in
  match http e with
  | RequestError | TransportError => store res.2 = store w
  | Response code _ =>
    if decide (code = 202) then
      db (store res.2)
      = (if save_fails e then db (store w) else save_row res.1.2 (db (store w)))
      ∧ Status res.1.2 = StatusSuccess
    else if decide (400 ≤ code < 500) then
      db (store res.2)
      = (if save_fails e then db (store w) else save_row res.1.2 (db (store w)))
      ∧ Status res.1.2 = StatusFailed
      ∧ cache (store res.2) = cache (store w)
    else store res.2 = store w ∧ res.1.2 = msg
  end.
Proof.
  run_attempt. destruct (http e) as [| |code body]; simpl; [done..|].
  repeat case_decide; simpl; try lia;
    repeat match goal with
           | |- context [save_fails e] => destruct (save_fails e); simpl
           | |- context [match ?b with Some _ => _ | None => _ end] =>
               destruct b; simpl
           | |- context [decide ?P] => destruct (decide P); simpl
           | |- context [cache_fails e] => destruct (cache_fails e); simpl
           end; done.
Qed.
End attempts.

Section whole_delivery.
Context (maxAttempts : option nat).
Implicit Types (e : AttemptEnv) (msg : Message) (w : World).

Lemma payload_content msg msg' :
  content_of msg' = content_of msg → payload msg' = payload msg.
Proof. unfold content_of, payload. by intros [= _ -> -> _]. Qed.

Lemma attemptStep_request e attempt msg w b msg1 w1 :
  attemptStep e attempt (msg, w) = (b, (msg1, w1)) →
  sent w1 = sent w ++ (if requested e then [payload msg] else [])
  ∧ content_of msg1 = content_of msg.
Proof.
  unfold requested. run_attempt. destruct (http e) as [| |code body]; simpl;
    [intros [= _ <- <-]; by rewrite app_nil_r|by intros [= _ <- <-]|].
  repeat case_decide; simpl;
    repeat match goal with
           | |- context [save_fails e] => destruct (save_fails e); simpl
           | |- context [match ?b with Some _ => _ | None => _ end] =>
               destruct b; simpl
           | |- context [decide ?P] => destruct (decide P); simpl
           | |- context [cache_fails e] => destruct (cache_fails e); simpl
           end;
    by intros [= _ <- <-].
Qed.

(** The requests of a loop are requests for the message it was started
    with, no more than the script is long and no more than the budget
    allows; the struct keeps its content. *)
Lemma Retry_requests script : ∀ attempt msg w b msg' w',
  Retry maxAttempts ctx_done attemptStep attempt script (msg, w) = Some (b, (msg', w')) →
  content_of msg' = content_of msg
  ∧ ∃ n, sent w' = sent w ++ replicate n (payload msg)
         ∧ (n ≤ length script)%nat
         ∧ (∀ k, maxAttempts = Some k → n ≤ S k - attempt)%nat.
Proof.
  induction script as [|e script IH]; intros attempt msg w b msg' w'; simpl.
  - destruct (exhausted maxAttempts attempt); [|done]. intros [= <- <- <-].
    split; [done|]. exists 0%nat. rewrite app_nil_r. split_and!; [done|lia|lia].
  - destruct (exhausted maxAttempts attempt) eqn:Hex.
    { intros [= <- <- <-]. split; [done|]. exists 0%nat. rewrite app_nil_r.
      split_and!; [done|lia|lia]. }
    assert (∀ k, maxAttempts = Some k → attempt ≤ k)%nat as Hroom.
    { intros k ->. simpl in Hex. apply bool_decide_eq_false in Hex. lia. }
    destruct (ctx_done e).
    { intros [= <- <- <-]. split; [done|]. exists 0%nat. rewrite app_nil_r.
      split_and!; [done|lia|lia]. }
    destruct (attemptStep e attempt (msg, w)) as [terminate [msg1 w1]] eqn:Hstep.
    apply attemptStep_request in Hstep as [Hsent Hcont].
    destruct terminate.
    + intros [= <- <- <-]. split; [done|].
      exists (if requested e then 1 else 0)%nat.
      split_and!; [by destruct (requested e)|destruct (requested e); lia|].
      intros k Hk. specialize (Hroom k Hk). destruct (requested e); lia.
    + intros Hrun. apply IH in Hrun as (Hcont' & n & Hsent' & Hn & Hk).
      split; [congruence|]. exists ((if requested e then 1 else 0) + n)%nat.
      split_and!.
      * rewrite Hsent', Hsent, (payload_content _ _ Hcont), <- (assoc_L (++)).
        by destruct (requested e).
      * destruct (requested e); lia.
      * intros k Hmax. specialize (Hk k Hmax). specialize (Hroom k Hmax).
        destruct (requested e); lia.
Qed.

(** With a budget, a loop whose script covers the budget does end. *)
Lemma Retry_returns k script : ∀ attempt (s : Message * World),
  (S k - attempt ≤ length script)%nat →
  is_Some (Retry (Some k) ctx_done attemptStep attempt script s).
Proof.
  induction script as [|e script IH]; intros attempt s Hlen; simpl in *.
  - rewrite bool_decide_eq_true_2 by lia. by eexists.
  - case_bool_decide; [by eexists|].
    destruct (ctx_done e); [by eexists|].
    destruct (attemptStep e attempt s) as [[] s1]; [by eexists|].
    apply IH. lia.
Qed.

Lemma sendMessage_content script fb msg w msg' w' :
  sendMessage maxAttempts script fb msg w = Some (msg', w') →
  content_of msg' = content_of msg
  ∧ ∃ n, sent w' = sent w ++ replicate n (payload msg).
Proof.
  unfold sendMessage.
  destruct (Retry maxAttempts ctx_done attemptStep 1 script (msg, w))
    as [[b [msg1 w1]]|] eqn:Hrun; [|done].
  apply Retry_requests in Hrun as (Hcont & n & Hsent & _).
  destruct b; simpl.
  - intros [= <- <-]. split; [done|]. by exists n.
  - run_attempt. destruct (fb_save_fails fb); simpl; intros [= <- <-];
      (split; [by rewrite <- Hcont|]); by exists n.
Qed.

Lemma sendMessage_other_rows script fb msg w msg' w' id :
  sendMessage maxAttempts script fb msg w = Some (msg', w') →
  id ≠ ID msg →
  lookup_row id (db (store w')) = lookup_row id (db (store w)).
Proof.
  intros [Hid [->|[-> _]]]%sendMessage_table Hne; [done|].
  apply lookup_row_save_ne. congruence.
Qed.

(** A delivery touches one row.  When [sendMessage] returns, the struct has
    the identifier, the content, the phone number and the creation time it
    had; the row stored under any other identifier is as it was; and every
    request sent carried the phone number and the content of the message. *)
Theorem sendMessage_touches_its_row_only
    (script : list AttemptEnv) (fb : FallbackEnv)
    (msg : Message) (w : World) (msg' : Message) (w' : World) :
  sendMessage maxAttempts script fb msg w = Some (msg', w') →
  content_of msg' = content_of msg
  ∧ (∀ id, id ≠ ID msg →
           lookup_row id (db (store w')) = lookup_row id (db (store w)))
  ∧ ∃ n, sent w' = sent w
           ++ replicate n {| to := PhoneNumber msg; content := Content msg |}.
Proof.
  intros Hsend. split_and!.
  - by apply sendMessage_content in Hsend as [? _].
  - intros id. by apply (sendMessage_other_rows script fb msg w msg' w').
  - by apply sendMessage_content in Hsend as [_ ?].
Qed.
End whole_delivery.

(** With [k] attempts allowed, whatever the webhook, the store and the cache
    answer, [sendMessage] returns, having sent at most [k] requests for the
    message. *)
Theorem sendMessage_sends_at_most_the_budget
    (k : nat) (script : list AttemptEnv) (fb : FallbackEnv)
    (msg : Message) (w : World) :
  (k ≤ length script)%nat →
  ∃ msg' w' n,
    sendMessage (Some k) script fb msg w = Some (msg', w')
    ∧ (n ≤ k)%nat
    ∧ sent w' = sent w ++ replicate n (payload msg).
Proof.
  intros Hlen.
  destruct (Retry_returns k script 1 (msg, w)) as [[b [msg1 w1]] Hrun]; [lia|].
  pose proof (Retry_requests (Some k) _ _ _ _ _ _ _ Hrun) as (_ & n & Hsent & _ & Hk).
  specialize (Hk k eq_refl).
  unfold sendMessage. rewrite Hrun. destruct b; simpl.
  - exists msg1, w1, n. split_and!; [done|lia|done].
  - run_attempt. destruct (fb_save_fails fb); simpl;
      eexists _, _, n; (split_and!; [reflexivity|lia|done]).
Qed.

(* ===================================================================== *)
(** ** Further properties of a cycle *)
(* ===================================================================== *)

Section cycles.
Context (maxAttempts : option nat).
Implicit Types (msg : Message) (w : World) (t : Table).

Lemma update_nothing now st t : update_status_where_id_in now [] st t = t.
Proof.
  unfold update_status_where_id_in. rewrite <- (list_fmap_id t) at 2.
  apply list_fmap_ext. intros _ m _.
  destruct (decide (ID m ∈ [])) as [H|]; [by apply elem_of_nil in H|done].
Qed.

Lemma lookup_row_update now ids st id t :
  lookup_row id (update_status_where_id_in now ids st t)
  = if decide (id ∈ ids)
    then (λ m, with_status st (with_updated_at now m)) <$> lookup_row id t
    else lookup_row id t.
Proof.
  unfold update_status_where_id_in.
  induction t as [|m t IH]; simpl; [by case_decide|].
  destruct (decide (ID m ∈ ids)) as [Hm|Hm]; simpl;
    destruct (decide (ID m = id)) as [<-|Hne]; simpl; try done.
  - by rewrite decide_True.
  - by rewrite decide_False.
Qed.

(** A cycle that finds nothing to claim does nothing: with a batch size of
    0, or with no pending row in the table, [processBatch] leaves the world
    as it is: no row changed, no request sent, nothing logged. *)
Theorem processBatch_without_work
    (locked : list Z) (now : Time) (batch : Z)
    (env : Message → list AttemptEnv * FallbackEnv) (w : World) :
  batch = 0 ∨ Forall (λ m, Status m ≠ StatusPending) (db (store w)) →
  processBatch maxAttempts locked now batch NoFault env w = Some w.
Proof.
  intros Hnone.
  assert (select_pending_skip_locked locked batch (db (store w)) = []) as Hsel.
  { destruct Hnone as [->|Hnone]; [done|].
    destruct (select_pending_skip_locked locked batch _) as [|m ms] eqn:Hsel; [done|].
    assert (m ∈ m :: ms) as Hm by left. rewrite <- Hsel in Hm.
    apply select_elem_of in Hm as (Hm & Hst & _).
    by apply (proj1 (Forall_forall _ _) Hnone) in Hm. }
  unfold processBatch. simpl. rewrite Hsel. simpl.
  rewrite update_nothing. by destruct w as [[] ? ?].
Qed.

Lemma sendAll_requests k env (msgs : list Message) : ∀ w w',
  sendAll (Some k) env msgs w = Some w' →
  (length (sent w') ≤ length (sent w) + length msgs * k)%nat.
Proof.
  induction msgs as [|m msgs IH]; intros w w'; simpl.
  - intros [= <-]. lia.
  - destruct (sendMessage (Some k) (env m).1 (env m).2 m w)
      as [[m' w1]|] eqn:Hsend; [|done].
    intros Hrest%IH.
    revert Hsend. unfold sendMessage.
    destruct (Retry (Some k) ctx_done attemptStep 1 (env m).1 (m, w))
      as [[b [m1 w2]]|] eqn:Hrun; [|done].
    apply Retry_requests in Hrun as (_ & n & Hsent & _ & Hk).
    specialize (Hk k eq_refl).
    assert (length (sent w2) ≤ length (sent w) + k)%nat as Hone.
    { rewrite Hsent, length_app, length_replicate. lia. }
    destruct b; simpl.
    + intros [= <- <-]. lia.
    + run_attempt. destruct (fb_save_fails (env m).2); simpl; intros [= <- <-];
        simpl in *; lia.
Qed.

(** A row that is not pending is not pending after any deliveries. *)
Lemma sendAll_not_pending env (msgs : list Message) : ∀ w w' id st,
  sendAll maxAttempts env msgs w = Some w' →
  status_of id (db (store w)) = Some st → st ≠ StatusPending →
  ∃ st', status_of id (db (store w')) = Some st' ∧ st' ≠ StatusPending.
Proof.
  induction msgs as [|m msgs IH]; intros w w' id st; simpl.
  - intros [= <-] ??. by exists st.
  - destruct (sendMessage maxAttempts (env m).1 (env m).2 m w)
      as [[m' w1]|] eqn:Hsend; [|done].
    intros Hrest Hst Hne.
    apply sendMessage_table in Hsend as [Hid [Hdb|[Hdb Hterm]]].
    + apply (IH _ _ id st Hrest); [by rewrite Hdb|done].
    + destruct (decide (id = ID m')) as [->|Hother].
      * apply (IH _ _ (ID m') (Status m') Hrest).
        -- by rewrite Hdb, status_of_save, decide_True.
        -- by destruct (Status m').
      * apply (IH _ _ id st Hrest); [|done].
        by rewrite Hdb, status_of_save, decide_False.
Qed.

Lemma sendAll_other_rows env (msgs : list Message) : ∀ w w' id,
  sendAll maxAttempts env msgs w = Some w' →
  id ∉ ids_of msgs →
  lookup_row id (db (store w')) = lookup_row id (db (store w)).
Proof.
  induction msgs as [|m msgs IH]; intros w w' id; simpl.
  - by intros [= <-].
  - destruct (sendMessage maxAttempts (env m).1 (env m).2 m w)
      as [[m' w1]|] eqn:Hsend; [|done].
    intros Hrest [Hne Hout]%not_elem_of_cons.
    rewrite (IH _ _ _ Hrest Hout).
    by apply (sendMessage_other_rows maxAttempts _ _ _ _ _ _ _ Hsend).
Qed.
End cycles.

(** One cycle sends at most batch size times attempt budget requests: with a
    batch size that is not negative and [k] attempts allowed per message,
    whatever happens to the claim and to the deliveries. *)
Theorem processBatch_sends_at_most
    (k : nat) (locked : list Z) (now : Time) (batch : Z) (fault : TxFault)
    (env : Message → list AttemptEnv * FallbackEnv) (w w' : World) :
  0 ≤ batch →
  processBatch (Some k) locked now batch fault env w = Some w' →
  (length (sent w') ≤ length (sent w) + Z.to_nat batch * k)%nat.
Proof.
  intros Hbatch. unfold processBatch.
  destruct fault; simpl; try (intros [= <-]; simpl; lia).
  pose proof (select_length locked batch (db (store w)) Hbatch) as Hsize.
  case_decide as Hlen; [intros [= <-]; simpl; lia|].
  intros Hall%sendAll_requests. simpl in Hall.
  etrans; [exact Hall|]. apply Nat.add_le_mono_l, Nat.mul_le_mono_r. lia.
Qed.

(** After a cycle on a table with unique keys, no message of the batch is
    pending any more, the rows outside the batch are as they were before the
    cycle, and the table has the keys it had. *)
Theorem processBatch_settles_its_batch
    (maxAttempts : option nat) (locked : list Z) (now : Time) (batch : Z)
    (env : Message → list AttemptEnv * FallbackEnv) (w w' : World) :
  NoDup (ids_of (db (store w))) →
  processBatch maxAttempts locked now batch NoFault env w = Some w' →
  let msgs := (FetchAndLockMessages locked now batch NoFault (db (store w))).1.1 in
  Forall (λ m, ∃ st, status_of (ID m) (db (store w')) = Some st
                     ∧ st ≠ StatusPending) msgs
  ∧ ∀ id, id ∉ ids_of msgs →
          lookup_row id (db (store w')) = lookup_row id (db (store w)).
Proof.
  intros Hnd Hcycle msgs. split.
  - destruct (FetchAndLockMessages_batch locked now batch (db (store w))) as [_ Hbatch].
    fold msgs in Hbatch. apply Forall_forall. intros m Hm.
    apply (proj1 (Forall_forall _ _) Hbatch) in Hm as (_ & _ & Hproc).
    revert Hcycle. unfold processBatch. simpl. fold msgs. case_decide as Hlen.
    + intros [= <-]. simpl. by exists StatusProcessing.
    + intros Hall.
      apply (sendAll_not_pending maxAttempts env msgs _ _ (ID m) StatusProcessing Hall);
        done.
  - intros id Hout. revert Hcycle. unfold processBatch. simpl.
    fold msgs. case_decide as Hlen.
    + intros [= <-]. simpl. by rewrite lookup_row_update, decide_False.
    + intros Hall. rewrite (sendAll_other_rows _ _ _ _ _ id Hall Hout). simpl.
      by rewrite lookup_row_update, decide_False.
Qed.

(* ===================================================================== *)
(** ** Further properties of the pipeline *)
(* ===================================================================== *)

Section contents.
Context (maxAttempts : option nat).
Implicit Types (s : System) (ev : Event) (id : Z).

Lemma content_of_with_status st m : content_of (with_status st m) = content_of m.
Proof. done. Qed.







(** A claim that fails holds nothing back: in every state the pipeline
    reaches, when the transaction of a claim is rolled back, the table is as
    it was, and each row the transaction had locked is pending and locked by
    no transaction, so that the next claim can return it. *)
Theorem rollback_releases_rows
    (w : World) (evs : list Event) (s s' : System) (i : nat) (tx : Tx) :
  NoDup (ids_of (db (store w))) →
  run maxAttempts evs (initial w) = Some s →
  txs s !! i = Some tx →
  step maxAttempts (Rollback i) s = Some s' →
  table s' = table s
  ∧ Forall (λ id, status_of id (table s') = Some StatusPending
                  ∧ id ∉ locked_ids (txs s')) (tx_locked tx).
Proof.
  intros Hnd Hrun Hi.
  pose proof (run_consistent maxAttempts evs _ _ (initial_consistent w Hnd) Hrun)
    as [_ Ho Hl _ _ _].
  simpl. rewrite Hi.
  destruct (lookup_middle _ _ _ Hi) as (pre & post & Htxs & Hins & _).
  rewrite Htxs, owned_ids_middle in Ho. rewrite Htxs, locked_ids_middle in Hl.
  assert (∀ id, id ∈ tx_locked tx →
                status_of id (table s) = Some StatusPending
                ∧ id ∉ locked_ids pre ++ locked_ids post) as Hfree.
  { intros id Hid. split; [apply Hl; rewrite !elem_of_app; tauto|].
    assert (id ∈ tx_owned tx) as Hown
      by (destruct tx; simpl in *; done || by apply elem_of_nil in Hid).
    apply NoDup_app in Ho as (_ & Hd1 & Ho). apply NoDup_app in Ho as (_ & Hd2 & _).
    intros [Hin|Hin]%elem_of_app.
    - apply (Hd1 id); [apply owned_ids_elem_of; by left|].
      apply elem_of_app. by left.
    - apply (Hd2 id Hown). apply owned_ids_elem_of. by left. }
  destruct tx as [ms|ms now|ms|ms]; try done; intros [= <-];
    (split; [done|]); apply Forall_forall; intros id Hid;
    unfold table in *; simpl; rewrite Hins, locked_ids_middle; simpl;
    by apply Hfree.
Qed.
End contents.

(* ===================================================================== *)
(** ** Further properties of the scheduler *)
(* ===================================================================== *)



Section settled_rows.
Context (maxAttempts : option nat).
Implicit Types (s : System) (ev : Event) (r : Message).

Lemma step_keeps_settled s ev s' r :
  consistent s → step maxAttempts ev s = Some s' →
  r ∈ table s → terminal (Status r) = true → r ∈ table s'.
Proof.
  intros [Hk Ho Hl Hc Hu Hp] Hstep Hr Hterm. unfold table in *.
  assert (status_of (ID r) (db (store (world s))) = Some (Status r)) as Hst.
  { unfold status_of. by rewrite (lookup_row_elem_of r _ Hk Hr). }
  assert (∀ t' : Table, lookup_row (ID r) t' = Some r → r ∈ t') as Hback.
  { intros t' Hlook. by apply lookup_row_Some in Hlook as [? _]. }
  pose proof (lookup_row_elem_of r _ Hk Hr) as Hlook.
  destruct ev as [limit|i clock|i|i|j script fb]; simpl in Hstep.
  - by injection Hstep as <-.
  - destruct (txs s !! i) as [[ms|ms now|ms|ms]|]; try done. by injection Hstep as <-.
  - destruct (txs s !! i) as [[ms|ms now|ms|ms]|] eqn:Hi; try done.
    injection Hstep as <-. simpl. apply Hback.
    rewrite lookup_row_update, decide_False; [done|].
    intros Hin. assert (ID r ∈ locked_ids (txs s)) as Hlocked.
    { apply list_elem_of_bind. exists (TxUpdated ms now).
      split; [done|]. by eapply list_elem_of_lookup_2. }
    apply Hl in Hlocked. rewrite Hst in Hlocked. injection Hlocked as Heq.
    by rewrite Heq in Hterm.
  - destruct (txs s !! i) as [[ms|ms now|ms|ms]|]; try done; by injection Hstep as <-.
  - destruct (inflight s !! j) as [msg|] eqn:Hj; [|done].
    destruct (sendMessage maxAttempts script fb msg (world s))
      as [[msg' w']|] eqn:Hsend; [|done].
    injection Hstep as <-. simpl. apply Hback.
    rewrite (sendMessage_other_rows maxAttempts _ _ _ _ _ _ _ Hsend); [done|].
    intros Heq. assert (ID msg ∈ ids_of (inflight s)) as Hfl.
    { apply list_elem_of_fmap_2. by eapply list_elem_of_lookup_2. }
    apply Hp in Hfl. rewrite <- Heq, Hst in Hfl. injection Hfl as Hproc.
    by rewrite Hproc in Hterm.
Qed.

Lemma run_keeps_settled evs : ∀ s s' r,
  consistent s → run maxAttempts evs s = Some s' →
  r ∈ table s → terminal (Status r) = true → r ∈ table s'.
Proof.
  induction evs as [|ev evs IH]; intros s s' r Hs; simpl.
  - by intros [= <-].
  - destruct (step maxAttempts ev s) as [s1|] eqn:Hstep; [|done].
    intros Hrun Hr Hterm. apply (IH s1); [by eapply step_consistent|done| |done].
    by eapply step_keeps_settled.
Qed.

(** A settled message is left alone.  In every state the pipeline reaches on
    a table with unique keys, a row whose status is [StatusSuccess] or
    [StatusFailed] is in the table, field for field, after any later claims
    and deliveries; so what [GetSentMessages] has listed once it lists for
    good. *)
Theorem settled_rows_never_change
    (w : World) (evs later : list Event) (s s' : System) :
  NoDup (ids_of (db (store w))) →
  run maxAttempts evs (initial w) = Some s →
  run maxAttempts later s = Some s' →
  Forall (λ r, terminal (Status r) = true → r ∈ table s') (table s)
  ∧ Forall (λ r, r ∈ GetSentMessages (store (world s')))
           (GetSentMessages (store (world s))).
Proof.
  intros Hnd Hrun Hlater.
  pose proof (run_consistent maxAttempts evs _ _ (initial_consistent w Hnd) Hrun) as Hs.
  split; apply Forall_forall.
  - intros r Hr Hterm. by eapply run_keeps_settled.
  - intros r [Hst Hr]%list_elem_of_filter. apply list_elem_of_filter.
    split; [done|]. eapply (run_keeps_settled later s s'); [done..|].
    by rewrite Hst.
Qed.
End settled_rows.

(* ===================================================================== *)
(** ** Properties of the start-up *)
(* ===================================================================== *)

Section connection_loops.
Context (attempt_ok : nat → bool).

(** The loop sends pings until one is answered or the rounds are used up:
    [n] pings fail, each followed by a wait, and the next one, if any round
    is left, is answered. *)
Lemma pingLoop_spec rounds : ∀ d,
  ∃ n, (n ≤ rounds)%nat
       ∧ (∀ i, (i < n)%nat → attempt_ok (redis.pings d + i) = false)
       ∧ redis.waits (redis.pingLoop rounds attempt_ok d) = (redis.waits d + n)%nat
       ∧ if decide (n < rounds)%nat
         then attempt_ok (redis.pings d + n) = true
              ∧ redis.pingErr (redis.pingLoop rounds attempt_ok d) = None
              ∧ redis.pings (redis.pingLoop rounds attempt_ok d)
                = (redis.pings d + S n)%nat
         else redis.pings (redis.pingLoop rounds attempt_ok d)
              = (redis.pings d + rounds)%nat
              ∧ (rounds ≠ 0%nat →
                 redis.pingErr (redis.pingLoop rounds attempt_ok d)
                 = Some redis.ErrPing).
Proof.
  induction rounds as [|rounds IH]; intros d; cbn [redis.pingLoop].
  - exists 0%nat. rewrite decide_False by lia.
    split_and!; try done; try lia; intros; lia.
  - destruct (attempt_ok (redis.pings d)) eqn:Hping.
    + exists 0%nat. rewrite decide_True by lia. rewrite !Nat.add_0_r. simpl.
      split_and!; try done; try lia; intros; lia.
    + destruct (IH {| redis.pingErr := Some redis.ErrPing;
                      redis.pings := S (redis.pings d);
                      redis.waits := S (redis.waits d) |})
        as (n & Hn & Hfail & Hwaits & Hend). simpl in *.
      exists (S n). split; [lia|]. split; [|split; [lia|]].
      * intros i Hi. destruct i as [|i]; [by rewrite Nat.add_0_r|].
        rewrite <- (Hfail i) by lia. f_equal. lia.
      * destruct (decide (n < rounds)%nat) as [Hlt|Hge].
        -- rewrite decide_True by lia. destruct Hend as (Hok & Herr & Hp).
           split_and!; [|done|lia]. rewrite <- Hok. f_equal. lia.
        -- rewrite decide_False by lia. destruct Hend as [Hp Herr].
           split; [lia|]. intros _.
           destruct rounds as [|r]; [done|]. by apply Herr.
Qed.

Lemma openLoop_spec rounds : ∀ st,
  ∃ n, (n ≤ rounds)%nat
       ∧ (∀ i, (i < n)%nat → attempt_ok (postgresql.opens st + i) = false)
       ∧ postgresql.ticks (postgresql.openLoop rounds attempt_ok st)
         = (postgresql.ticks st + n)%nat
       ∧ postgresql.migrated (postgresql.openLoop rounds attempt_ok st)
         = postgresql.migrated st
       ∧ if decide (n < rounds)%nat
         then attempt_ok (postgresql.opens st + n) = true
              ∧ postgresql.err (postgresql.openLoop rounds attempt_ok st) = None
              ∧ postgresql.opens (postgresql.openLoop rounds attempt_ok st)
                = (postgresql.opens st + S n)%nat
         else postgresql.opens (postgresql.openLoop rounds attempt_ok st)
              = (postgresql.opens st + rounds)%nat
              ∧ (rounds ≠ 0%nat →
                 postgresql.err (postgresql.openLoop rounds attempt_ok st)
                 = Some postgresql.ErrOpen).
Proof.
  induction rounds as [|rounds IH]; intros st; cbn [postgresql.openLoop].
  - exists 0%nat. rewrite decide_False by lia.
    split_and!; try done; try lia; intros; lia.
  - destruct (attempt_ok (postgresql.opens st)) eqn:Hopen.
    + exists 0%nat. rewrite decide_True by lia. rewrite !Nat.add_0_r. simpl.
      split_and!; try done; try lia; intros; lia.
    + destruct (IH {| postgresql.err := Some postgresql.ErrOpen;
                      postgresql.opens := S (postgresql.opens st);
                      postgresql.ticks := S (postgresql.ticks st);
                      postgresql.migrated := postgresql.migrated st |})
        as (n & Hn & Hfail & Hticks & Hmig & Hend). simpl in *.
      exists (S n). split; [lia|]. split; [|split; [lia|split; [done|]]].
      * intros i Hi. destruct i as [|i]; [by rewrite Nat.add_0_r|].
        rewrite <- (Hfail i) by lia. f_equal. lia.
      * destruct (decide (n < rounds)%nat) as [Hlt|Hge].
        -- rewrite decide_True by lia. destruct Hend as (Hok & Herr & Hp).
           split_and!; [|done|lia]. rewrite <- Hok. f_equal. lia.
        -- rewrite decide_False by lia. destruct Hend as [Hp Herr].
           split; [lia|]. intros _.
           destruct rounds as [|r]; [done|]. by apply Herr.
Qed.

(** [NewRedisCache] pings at most five times and stops at the first ping
    that is answered: if the pings 0 to [n - 1] fail and ping [n] is the
    first answered, with [n < 5], it returns the cache and no error after
    [n + 1] pings; if all five fail it returns the error after five pings.
    Either way it has waited one tick of the retry ticker after each failed
    ping, also after the fifth. *)
Theorem NewRedisCache_pings_until_answered (address : string) :
  let res := redis.NewRedisCache address attempt_ok in
  ∃ n, (n ≤ 5)%nat
       ∧ (∀ i, (i < n)%nat → attempt_ok i = false)
       ∧ redis.waits res.2 = n
       ∧ if decide (n < 5)%nat
         then attempt_ok n = true
              ∧ res.1 = (Some {| redis.addr := address |}, None)
              ∧ redis.pings res.2 = S n
         else res.1 = (None, Some redis.ErrPing) ∧ redis.pings res.2 = 5%nat.
Proof.
  unfold redis.NewRedisCache.
  destruct (pingLoop_spec 5 {| redis.pingErr := None; redis.pings := 0; redis.waits := 0 |})
    as (n & Hn & Hfail & Hwaits & Hend).
  set (d := redis.pingLoop 5 attempt_ok _) in *. simpl in *.
  exists n. revert Hend. destruct (decide (n < 5)%nat) as [Hlt|Hge]; intros Hend.
  - destruct Hend as (Hok & -> & Hp). simpl. by repeat split.
  - destruct Hend as (Hp & ->); [done|]. simpl. by repeat split.
Qed.

(** [Initialize] opens the database at most five times and stops at the
    first success; it migrates only with a connection, and then the error it
    returns is the error of the migration.  If the calls 0 to [n - 1] of
    [gorm.Open] fail and call [n] is the first to succeed, with [n < 5], it
    has opened [n + 1] times and migrated; if all five fail it returns the
    open error without migrating.  It has waited one tick after each failed
    call. *)
Theorem Initialize_opens_until_connected (migrate_fails : bool) :
  let st := postgresql.Initialize attempt_ok migrate_fails in
  ∃ n, (n ≤ 5)%nat
       ∧ (∀ i, (i < n)%nat → attempt_ok i = false)
       ∧ postgresql.ticks st = n
       ∧ if decide (n < 5)%nat
         then attempt_ok n = true
              ∧ postgresql.opens st = S n
              ∧ postgresql.migrated st = true
              ∧ postgresql.err st
                = (if migrate_fails then Some postgresql.ErrMigrate else None)
         else postgresql.opens st = 5%nat
              ∧ postgresql.migrated st = false
              ∧ postgresql.err st = Some postgresql.ErrOpen.
Proof.
  unfold postgresql.Initialize.
  destruct (openLoop_spec 5 {| postgresql.err := None; postgresql.opens := 0;
                               postgresql.ticks := 0; postgresql.migrated := false |})
    as (n & Hn & Hfail & Hticks & Hmig & Hend).
  set (st := postgresql.openLoop 5 attempt_ok _) in *. simpl in *.
  exists n. revert Hend. destruct (decide (n < 5)%nat) as [Hlt|Hge]; intros Hend.
  - destruct Hend as (Hok & -> & Hp). simpl. by repeat split.
  - destruct Hend as (Hp & Herr). rewrite Herr by done. simpl.
    rewrite Herr by done. by repeat split.
Qed.
End connection_loops.

(** [populateDatabase] fills an empty table only, and once: after a run that
    reported no error, the table is not empty, and a further run, whatever
    fails in it, leaves the table as it is.  A table that has rows is never
    changed. *)
Theorem populateDatabase_fills_once
    (count_fails create_fails count_fails' create_fails' : bool)
    (stored : list (string * string) → list Message) (t : Table) :
  length (stored main.messages) = length main.messages →
  let first := main.populateDatabase count_fails create_fails stored t in
  (t ≠ [] → first.2 = t)
  ∧ (first.1 = None →
     first.2 ≠ []
     ∧ (main.populateDatabase count_fails' create_fails' stored first.2).2 = first.2).
Proof.
  intros Hstored. unfold main.populateDatabase.
  destruct count_fails; simpl; [done|].
  destruct t as [|m t]; simpl.
  - destruct create_fails; simpl; [done|]. split; [done|]. intros _.
    destruct (stored main.messages) as [|r rows]; [done|]. simpl.
    split; [done|]. by destruct count_fails'.
  - split; [done|]. intros _. split; [done|]. by destruct count_fails'.
Qed.

(* ===================================================================== *)
(** ** The further properties on sample data *)
(* ===================================================================== *)

Lemma mixed_table_keys_unique : NoDup (ids_of mixed_table).
Proof. by apply (bool_decide_unpack _). Qed.


(** Limit 5, three rows pending, one of them locked by another claim: two
    rows claimed. *)
Lemma claim_batch_size_witness :
  0 ≤ 5
  ∧ length (FetchAndLockMessages [2] 1700000050 5 NoFault three_pending).1.1 = 2%nat.
Proof.
  assert (0 ≤ 5) as H by lia. split; [exact H|].
  exact (claim_batch_size [2] 1700000050 5 three_pending H).
Defined.

(** Limit 5 covers the pending rows of [mixed_table]; row 1 is held by
    another transaction, so the claim takes row 4 only, and a later claim
    finds row 1 and nothing else. *)
Lemma claim_of_everything_witness :
  (length (filter (λ m, Status m = StatusPending ∧ ID m ∉ [1%Z]) mixed_table)
   ≤ Z.to_nat 5)%nat
  ∧ (FetchAndLockMessages [1] 1700000050 5 NoFault mixed_table).1.1
    = [hello 4 StatusPending]
  ∧ (FetchAndLockMessages [] 1700000060 5 NoFault
       (FetchAndLockMessages [1] 1700000050 5 NoFault mixed_table).2).1.1
    = [hello 1 StatusPending]
  ∧ Forall (λ m, Status m = StatusPending → ID m ∈ [1])
           (FetchAndLockMessages [1] 1700000050 5 NoFault mixed_table).2
  ∧ Forall (λ m, ID m ∈ [1])
           (FetchAndLockMessages [] 1700000060 5 NoFault
              (FetchAndLockMessages [1] 1700000050 5 NoFault mixed_table).2).1.1.
Proof.
  assert (length (filter (λ m, Status m = StatusPending ∧ ID m ∉ [1%Z]) mixed_table)
          ≤ Z.to_nat 5)%nat
    as H by (vm_compute; lia).
  split_and!; [exact H|reflexivity|reflexivity|..].
  - exact (proj1 (claim_of_everything_leaves_nothing [1] [] 1700000050 1700000060
                    5 5 mixed_table H)).
  - exact (proj1 (proj2 (claim_of_everything_leaves_nothing [1] [] 1700000050
                           1700000060 5 5 mixed_table H))).
Defined.

(** Row 2 is the list of sent messages before and after a claim. *)
Lemma claim_keeps_sent_messages_witness :
  NoDup (ids_of (db (repo_of mixed_table)))
  ∧ GetSentMessages
      (set_db (FetchAndLockMessages [] 1700000050 2 NoFault
                 (db (repo_of mixed_table))).2
              (repo_of mixed_table))
    = GetSentMessages (repo_of mixed_table).
Proof.
  split; [exact mixed_table_keys_unique|].
  exact (claim_keeps_sent_messages [] 1700000050 2 NoFault (repo_of mixed_table)
           mixed_table_keys_unique).
Defined.

(** Row 2, delivered, is marked failed: it leaves the list of sent
    messages. *)
Lemma UpdateStatus_shows_in_sent_messages_witness :
  NoDup (ids_of (db (repo_of mixed_table)))
  ∧ Forall (λ m, ID m ≠ 2)
      (GetSentMessages
         (UpdateStatus 1700000300 false (hello 2 StatusSuccess) StatusFailed
                       (repo_of mixed_table)).2).
Proof.
  split; [exact mixed_table_keys_unique|].
  exact (UpdateStatus_shows_in_sent_messages 1700000300 false (hello 2 StatusSuccess)
           StatusFailed (repo_of mixed_table) mixed_table_keys_unique).
Defined.

(** A server error, then 202: the struct keeps its content, row 2 is not
    touched, and the requests are for the message. *)
Lemma sendMessage_touches_its_row_only_witness :
  ∃ msg' w',
    sendMessage (Some 3%nat) [answer 500 None; answer 202 accepted_body] fallback
                (hello 1 StatusPending)
                (world_of [hello 1 StatusProcessing; hello 2 StatusPending])
    = Some (msg', w')
    ∧ content_of msg' = content_of (hello 1 StatusPending)
    ∧ lookup_row 2 (db (store w')) = Some (hello 2 StatusPending)
    ∧ ∃ n, sent w' = replicate n (payload (hello 1 StatusPending)).
Proof.
  destruct (sendMessage (Some 3%nat) [answer 500 None; answer 202 accepted_body] fallback
              (hello 1 StatusPending)
              (world_of [hello 1 StatusProcessing; hello 2 StatusPending]))
    as [[msg' w']|] eqn:Hsend; [|by vm_compute in Hsend].
  exists msg', w'.
  destruct (sendMessage_touches_its_row_only (Some 3%nat) _ _ _ _ _ _ Hsend)
    as (Hcont & Hrows & Hsent).
  split_and!; [reflexivity|exact Hcont| |exact Hsent].
  rewrite (Hrows 2); [reflexivity|]. simpl. lia.
Defined.

(** Three attempts allowed, a webhook that always answers 500: three
    requests at most. *)
Lemma sendMessage_budget_witness :
  (3 ≤ length [answer 500 None; answer 500 None; answer 500 None; answer 500 None])%nat
  ∧ ∃ msg' w' n,
      sendMessage (Some 3%nat)
                  [answer 500 None; answer 500 None; answer 500 None; answer 500 None]
                  fallback (hello 1 StatusPending)
                  (world_of [hello 1 StatusProcessing])
      = Some (msg', w')
      ∧ (n ≤ 3)%nat
      ∧ sent w' = sent (world_of [hello 1 StatusProcessing])
                  ++ replicate n (payload (hello 1 StatusPending)).
Proof.
  assert (3 ≤ length [answer 500 None; answer 500 None; answer 500 None;
                      answer 500 None])%nat as H by (simpl; lia).
  split; [exact H|].
  exact (sendMessage_sends_at_most_the_budget 3 _ fallback (hello 1 StatusPending)
           (world_of [hello 1 StatusProcessing]) H).
Defined.

(** A delivery accepted at the first attempt issues one terminal update. *)
Lemma sendMessage_terminal_updates_witness :
  ∃ msg' w' cs,
    sendMessage (Some 3%nat) [answer 202 accepted_body] fallback
                (hello 1 StatusPending) (world_of [hello 1 StatusProcessing])
    = Some (msg', w')
    ∧ calls (store w') = calls (store (world_of [hello 1 StatusProcessing])) ++ cs
    ∧ ((terminal_updates 1 cs = [] ∧ msg' = hello 1 StatusPending
        ∧ db (store w') = [hello 1 StatusProcessing])
       ∨ (terminal_updates 1 cs = [CallUpdateStatus 1 (Status msg')]
          ∧ terminal (Status msg') = true)).
Proof.
  destruct (sendMessage (Some 3%nat) [answer 202 accepted_body] fallback
              (hello 1 StatusPending) (world_of [hello 1 StatusProcessing]))
    as [[msg' w']|] eqn:Hsend; [|by vm_compute in Hsend].
  destruct (sendMessage_terminal_updates (Some 3%nat) _ _ _ _ _ _ Hsend) as (cs & Hcs).
  exists msg', w', cs. split; [reflexivity|exact Hcs].
Defined.

(** A cycle with batch size 0 on a table with pending rows. *)
Lemma processBatch_without_work_witness :
  (0 = 0 ∨ Forall (λ m, Status m ≠ StatusPending) (db (store (world_of mixed_table))))
  ∧ processBatch (Some 3%nat) [] 1700000050 0 NoFault always_accepted
                  (world_of mixed_table)
    = Some (world_of mixed_table).
Proof.
  assert (0 = 0 ∨ Forall (λ m, Status m ≠ StatusPending)
                         (db (store (world_of mixed_table)))) as H by (by left).
  split; [exact H|].
  exact (processBatch_without_work (Some 3%nat) [] 1700000050 0 always_accepted
           (world_of mixed_table) H).
Defined.

(** A cycle of batch size 2 with 3 attempts allowed sends 6 requests at
    most. *)
Lemma processBatch_sends_at_most_witness :
  0 ≤ 2
  ∧ ∃ w', processBatch (Some 3%nat) [] 1700000050 2 NoFault always_accepted
                       (world_of mixed_table)
          = Some w'
          ∧ (length (sent w') ≤ length (sent (world_of mixed_table)) + Z.to_nat 2 * 3)%nat.
Proof.
  assert (0 ≤ 2) as H by lia. split; [exact H|].
  destruct (processBatch (Some 3%nat) [] 1700000050 2 NoFault always_accepted
              (world_of mixed_table))
    as [w'|] eqn:Hcycle; [|by vm_compute in Hcycle].
  exists w'. split; [reflexivity|].
  exact (processBatch_sends_at_most 3 [] 1700000050 2 NoFault always_accepted _ w'
           H Hcycle).
Defined.

(** A cycle of batch size 1 on [mixed_table]: row 1 is settled, row 4 is as
    it was. *)
Lemma processBatch_settles_its_batch_witness :
  NoDup (ids_of (db (store (world_of mixed_table))))
  ∧ ∃ w', processBatch (Some 3%nat) [] 1700000050 1 NoFault always_accepted
                       (world_of mixed_table)
          = Some w'
          ∧ Forall (λ m, ∃ st, status_of (ID m) (db (store w')) = Some st
                               ∧ st ≠ StatusPending)
                   [hello 1 StatusPending]
          ∧ lookup_row 4 (db (store w')) = Some (hello 4 StatusPending).
Proof.
  split; [exact mixed_table_keys_unique|].
  destruct (processBatch (Some 3%nat) [] 1700000050 1 NoFault always_accepted
              (world_of mixed_table))
    as [w'|] eqn:Hcycle; [|by vm_compute in Hcycle].
  exists w'.
  destruct (processBatch_settles_its_batch (Some 3%nat) [] 1700000050 1 always_accepted
              (world_of mixed_table) w' mixed_table_keys_unique Hcycle)
    as [Hbatch Hrest].
  split_and!; [reflexivity|exact Hbatch|].
  rewrite (Hrest 4); [reflexivity|]. by apply (bool_decide_unpack _).
Defined.


(** A claim of two rows whose update fails: rows 1 and 2 are pending and
    unlocked again. *)
Lemma rollback_releases_rows_witness :
  NoDup (ids_of (db (store (world_of three_pending))))
  ∧ ∃ s s', run (Some 3%nat) [Select 2] (initial (world_of three_pending)) = Some s
            ∧ txs s !! 0%nat
              = Some (TxSelected [hello 1 StatusPending; hello 2 StatusPending])
            ∧ step (Some 3%nat) (Rollback 0) s = Some s'
            ∧ table s' = table s
            ∧ Forall (λ id, status_of id (table s') = Some StatusPending
                            ∧ id ∉ locked_ids (txs s')) [1; 2].
Proof.
  split; [exact three_pending_keys_unique|].
  destruct (run (Some 3%nat) [Select 2] (initial (world_of three_pending)))
    as [s|] eqn:Hrun; [|by vm_compute in Hrun].
  assert (txs s !! 0%nat
          = Some (TxSelected [hello 1 StatusPending; hello 2 StatusPending])) as Htx.
  { vm_compute in Hrun. by injection Hrun as <-. }
  destruct (step (Some 3%nat) (Rollback 0) s) as [s'|] eqn:Hstep.
  2:{ simpl in Hstep. by rewrite Htx in Hstep. }
  exists s, s'. split_and!; [reflexivity|exact Htx|exact Hstep|..];
    apply (rollback_releases_rows (Some 3%nat) (world_of three_pending) [Select 2]
             s s' 0 _ three_pending_keys_unique Hrun Htx Hstep).
Defined.

(** Filling an empty table, then running again with a failing insert. *)
Lemma populateDatabase_fills_once_witness :
  length (stored_rows main.messages) = length main.messages
  ∧ (main.populateDatabase false false stored_rows []).1 = None
  ∧ length (main.populateDatabase false false stored_rows []).2 = 8%nat
  ∧ (main.populateDatabase false true stored_rows
       (main.populateDatabase false false stored_rows []).2).2
    = (main.populateDatabase false false stored_rows []).2.
Proof.
  assert (length (stored_rows main.messages) = length main.messages) as H
    by reflexivity.
  split_and!; [exact H|reflexivity|reflexivity|].
  exact (proj2 (proj2 (populateDatabase_fills_once false false false true
                         stored_rows [] H) eq_refl)).
Defined.

(** Row 3, delivered by [two_claims], is still listed after the delivery of
    row 1. *)
Lemma settled_rows_never_change_witness :
  NoDup (ids_of (db (store (world_of three_pending))))
  ∧ ∃ s s',
      run (Some 3%nat) two_claims (initial (world_of three_pending)) = Some s
      ∧ run (Some 3%nat) [Send 0 [answer 202 accepted_body] fallback] s = Some s'
      ∧ length (GetSentMessages (store (world s))) = 1%nat
      ∧ Forall (λ r, terminal (Status r) = true → r ∈ table s') (table s)
      ∧ Forall (λ r, r ∈ GetSentMessages (store (world s')))
               (GetSentMessages (store (world s))).
Proof.
  split; [exact three_pending_keys_unique|].
  destruct (run (Some 3%nat) two_claims (initial (world_of three_pending)))
    as [s|] eqn:Hrun; [|by vm_compute in Hrun].
  assert (∃ s', run (Some 3%nat) [Send 0 [answer 202 accepted_body] fallback] s
                = Some s') as [s' Hlater].
  { vm_compute in Hrun. injection Hrun as <-. by eexists. }
  exists s, s'. split_and!; [reflexivity|exact Hlater| |..].
  - vm_compute in Hrun. by injection Hrun as <-.
  - exact (proj1 (settled_rows_never_change (Some 3%nat) (world_of three_pending)
                    two_claims _ s s' three_pending_keys_unique Hrun Hlater)).
  - exact (proj2 (settled_rows_never_change (Some 3%nat) (world_of three_pending)
                    two_claims _ s s' three_pending_keys_unique Hrun Hlater)).
Defined.
